(** * kugelblitz.translator: the Python-to-JavaScript tree translator

    A shallow embedding of [kugelblitz/translator/__init__.py].  The
    translator walks a Python [ast] tree and returns JavaScript text; every
    handler is a Python function [translate_xxx(node)] that calls the
    dispatcher [translate] on its children.

    - Python strings are [string]; [sep.join(l)] is [join sep l].
    - A raised exception is the [Raise] branch of [result]; nothing is ever
      caught in the source, so an exception aborts the whole call.
    - The [dict]s of [translate_class] are [gmap string node].  Python
      leaves the iteration order of [dict.items()] open, so the order is a
      parameter of the development (class [DictItems]).
    - The mutual recursion between [translate] and its handlers is tied with
      a recursion budget (Python's own interpreter has one too): the handlers
      are written over the dispatcher they call back, and [translate] spends
      one unit of budget per dispatch. *)

From Stdlib Require Import ZArith DecimalString DecimalPos DecimalZ.
From Stdlib Require HexadecimalString.
From stdpp Require Import base tactics option list strings gmap sorting.

Set Warnings "-register-all".

(** ** Strings *)

(** The newline character, written ['\n'] in the source. *)
Definition nl : string := String (Ascii.ascii_of_nat 10) EmptyString.

(** [sep.join(ls)] *)
Definition join (sep : string) (ls : list string) : string := String.concat sep ls.

(** [str(n)] on a Python integer: the decimal numeral, with a leading minus
    sign for a negative number. *)
Definition str (n : Z) : string := NilZero.string_of_int (Z.to_int n).


(** ** Exceptions *)

Inductive exn : Type :=
| KeyError (cls : string)         (* no handler registered for the node class *)
| CompileError (msg : string)     (* [class CompileError(RuntimeError)] *)
| AssertionError (msg : string)   (* a failed [assert] *)
| IndexError                      (* list index out of range *)
| AttributeError                  (* the node lacks the attribute that is read *)
| TypeError                       (* keyword argument the handler does not take *)
| RecursionLimit.                 (* the recursion budget is used up *)

Inductive result (A : Type) : Type :=
| Ok (a : A)
| Raise (e : exn).
Arguments Ok {A} a.
Arguments Raise {A} e.

Definition bind {A B} (m : result A) (k : A → result B) : result B :=
  match m with
  | Ok a => k a
  | Raise e => Raise e
  end.

Notation "'do' x <- m ; k" := (bind m (fun x => k))
  (at level 10, x name, m at level 100, k at level 200, only parsing).

(** The body of a [for] loop run over a list, results collected in order; the
    first exception ends the loop. *)
Fixpoint for_each {A B} (f : A → result B) (l : list A) : result (list B) :=
  match l with
  | [] => Ok []
  | x :: l' => do y <- f x; do ys <- for_each f l'; Ok (y :: ys)
  end.

(** [assert cond, msg] *)
Definition assert (cond : bool) (msg : string) : result unit :=
  if cond then Ok tt else Raise (AssertionError msg).

(** ** Syntax trees *)

(** The node classes of Python's [ast] that the translator looks at, with the
    fields it reads.  [Pow] has no entry in the dispatch table but is tested
    for by [translate_bin_op]; [Other cls] stands for an object of any other
    class ([Str], [Subscript], [NoneType], ...).  A formal parameter list
    [node.args.args] is a list of nodes: Python 2 allows [Name] and [Tuple]
    there.  The number [n] of a [Num] node is an integer ([int] or [long]);
    [float] and [complex] numbers are not part of the model. *)
Inductive node : Type :=
| Module (body : list node)
| FunctionDef (name : string) (args : list node) (body : list node)
| Return (value : node)
| Name (id : string)
| ClassDef (name : string) (body : list node)
| Assign (targets : list node) (value : node)
| Attribute (value : node) (attr : string)
| Num (n : Z)
| Tuple (elts : list node)
| BoolOp (op : node) (values : list node)
| BinOp (left op right : node)
| Compare (left : node) (ops comparators : list node)
| UnaryOp (op operand : node)
| Lambda (args : list node) (body : node)
| Call (func : node) (args : list node)
| If (test : node) (body orelse : list node)
| IfExp (test body orelse : node)
| Expr (value : node)
| And | Or
| Add | Sub | Mult | Div | Mod | LShift | RShift | BitOr | BitXor | BitAnd | FloorDiv
| Invert | Not | UAdd | USub
| Eq | Lt | LtE | Gt | GtE
| Pow
| Other (cls : string).

(** [isinstance(node, ast.If)], [isinstance(node, ast.Pow)] *)
Definition is_If (n : node) : bool := match n with If _ _ _ => true | _ => false end.
Definition is_Pow (n : node) : bool := match n with Pow => true | _ => false end.

(** [arg.id] on a formal parameter: only [Name] nodes have the attribute. *)
Definition arg_id (arg : node) : result string :=
  match arg with
  | Name id => Ok id
  | _ => Raise AttributeError
  end.

(** [**kwargs] of [translate]: the only keyword a handler takes is
    [instance_method], so the keyword dictionary is either empty ([None]) or
    gives that flag. *)
Definition kwargs : Type := option bool.
Definition no_kwargs : kwargs := None.

(** ** Dictionaries *)

Abbreviation dict := (gmap string node).

(** [d.items()]: some enumeration of the entries, in an order Python does
    not fix. *)
Class DictItems : Type := {
  items : dict → list (string * node);
  items_perm : ∀ d, items d ≡ₚ map_to_list d
}.

(** [sorted(d.items())].  The pairs of a dictionary have pairwise different
    keys, so Python's comparison of two pairs is decided by the keys, which
    are compared as byte strings. *)
Definition key_le (x y : string * node) : Prop := String.le x.1 y.1.

#[global] Instance key_le_dec : RelDecision key_le.
Proof. intros x y. unfold key_le. apply _. Defined.

Definition sorted (l : list (string * node)) : list (string * node) :=
  merge_sort key_le l.

(** ** The handlers

    Each handler is written over the dispatcher [translate] it calls on its
    children; the source always makes these calls without keywords. *)

Section handlers.
Context `{DictItems}.
Variable translate : node → kwargs → result string.

(** [l[i]] *)
Definition index (l : list node) (i : nat) : result node :=
  match l !! i with
  | Some x => Ok x
  | None => Raise IndexError
  end.

(** The parameter [line_separator] is taken and never read: the statements
    are joined with a newline whatever it is. *)
Definition translate_body (body : list node) (line_separator : string) : result string :=
  do s <- for_each (λ node,
            if is_If node then translate node no_kwargs
            else do t <- translate node no_kwargs; Ok (t +:+ ";")) body;
  Ok (join nl s).

Definition translate_module (body : list node) : result string :=
  translate_body body (nl +:+ nl).

Definition translate_function (node : node) (instance_method : bool) : result string :=
  match node with
  | FunctionDef name args body =>
      if instance_method then
        do ids <- for_each arg_id (drop 1 args);
        let args_def := join ", " ids in
        do body_def <- translate_body body nl;
        Ok ("function (" +:+ args_def +:+ ") { " +:+ body_def +:+ " }")
      else
        do ids <- for_each arg_id args;
        let args_def := join ", " ids in
        do body_def <- translate_body body nl;
        Ok ("var " +:+ name +:+ " = function (" +:+ args_def +:+ ") { " +:+ body_def +:+ " }")
  | _ => Raise AttributeError
  end.

Definition translate_return (value : node) : result string :=
  do v <- translate value no_kwargs;
  Ok ("return " +:+ v).

Definition translate_lambda (args : list node) (body : node) : result string :=
  do ids <- for_each arg_id args;
  do body_def <- translate_body [body] nl;
  Ok ("function(" +:+ join ", " ids +:+ ") {" +:+ nl +:+ "return " +:+ body_def +:+ nl +:+ "}").

Definition translate_if (test : node) (body orelse : list node) : result string :=
  do test_def <- translate test no_kwargs;
  do body_def <- translate_body body nl;
  let s := ["if (" +:+ test_def +:+ ") { " +:+ body_def +:+ " }"] in
  match orelse with
  | [] => Ok (join nl s)
  | _ :: _ =>
      do orelse_def <- translate_body orelse nl;
      Ok (join nl (s ++ ["else { " +:+ orelse_def +:+ " }"]))
  end.

Definition translate_if_exp (test body orelse : node) : result string :=
  do test' <- translate test no_kwargs;
  do body' <- translate body no_kwargs;
  do orelse' <- translate orelse no_kwargs;
  Ok (test' +:+ " ? " +:+ body' +:+ " : " +:+ orelse').

Definition translate_name (id : string) : result string :=
  if decide (id = "self") then Ok "this" else Ok id.

Definition translate_tuple (elts : list node) : result string :=
  Ok "?tuple?".

Definition translate_bool_op (op : node) (values : list node) : result string :=
  do left <- (do v <- index values 0; translate v no_kwargs);
  do op' <- translate op no_kwargs;
  do right <- (do v <- index values 1; translate v no_kwargs);
  Ok ("(" +:+ left +:+ " " +:+ op' +:+ " " +:+ right +:+ ")").

Definition translate_bin_op (left op right : node) : result string :=
  if is_Pow op then
    do lr <- for_each (λ n, translate n no_kwargs) [left; right];
    match lr with
    | [l; r] => Ok ("Math.pow(" +:+ l +:+ ", " +:+ r +:+ ")")
    | _ => Raise TypeError
    end
  else
    do left' <- translate left no_kwargs;
    do op' <- translate op no_kwargs;
    do right' <- translate right no_kwargs;
    Ok ("(" +:+ left' +:+ " " +:+ op' +:+ " " +:+ right' +:+ ")").

Definition translate_unary_op (op operand : node) : result string :=
  do parts <- for_each (λ n, translate n no_kwargs) [op; operand];
  Ok (join EmptyString parts).

Definition translate_attribute (value : node) (attr : string) : result string :=
  do left <- translate value no_kwargs;
  Ok (left +:+ "." +:+ attr).

(** One round of the loop of [translate_assign]: the statements that one
    target adds. *)
Definition assign_target (value target : node) : result (list string) :=
  match target with
  | Tuple telts =>
      match value with
      | Tuple velts =>
          if decide (length telts ≠ length velts) then
            Raise (CompileError "Assigning one tuple to another of different length.")
          else
            for_each (λ tv : node * node,
              do value' <- translate tv.2 no_kwargs;
              do target' <- translate tv.1 no_kwargs;
              Ok (target' +:+ " = " +:+ value')) (zip telts velts)
      | _ => Raise (CompileError "Assigning a non-tuple to a tuple.")
      end
  | _ =>
      do value' <- translate value no_kwargs;
      do target' <- translate target no_kwargs;
      Ok [target' +:+ " = " +:+ value']
  end.

Definition translate_assign (targets : list node) (value : node) : result string :=
  do statements <- for_each (assign_target value) targets;
  Ok (join (";" +:+ nl) (concat statements)).

Definition translate_num (n : Z) : result string :=
  Ok (str n).

Definition translate_call (func : node) (args : list node) : result string :=
  do args' <- for_each (λ n, translate n no_kwargs) args;
  let args_def := join ", " args' in
  do func' <- translate func no_kwargs;
  Ok (func' +:+ "(" +:+ args_def +:+ ")").

Definition translate_compare (left : node) (ops comparators : list node) : result string :=
  do _ <- assert (bool_decide (length ops = 1)) "Cannot have multiple comparison";
  do _ <- assert (bool_decide (length comparators = 1)) "Cannot have multiple comparison";
  do left' <- translate left no_kwargs;
  do op <- (do o <- index ops 0; translate o no_kwargs);
  do comparator <- (do c <- index comparators 0; translate c no_kwargs);
  Ok ("(" +:+ left' +:+ " " +:+ op +:+ " " +:+ comparator +:+ ")").

(** The first loop of [translate_class]: one member statement is filed
    into [functions] or [assigns]; any other statement is passed over. *)
Definition class_member (fa : dict * dict) (item : node) : result (dict * dict) :=
  let '(functions, assigns) := fa in
  match item with
  | FunctionDef name _ _ => Ok (<[name := item]> functions, assigns)
  | Assign targets value =>
      do _ <- assert (bool_decide (length targets = 1)) "You can only assign to a single item.";
      match targets with
      | Name id :: _ => Ok (functions, <[id := value]> assigns)
      | _ => Raise (AssertionError "You can only assign to simple names in classes")
      end
  | _ => Ok fa
  end.

Fixpoint class_members (fa : dict * dict) (body : list node) : result (dict * dict) :=
  match body with
  | [] => Ok fa
  | item :: body' => do fa' <- class_member fa item; class_members fa' body'
  end.

Definition translate_class (name : string) (body : list node) : result string :=
  do fa <- class_members (∅, ∅) body;
  let '(functions, assigns) := fa in
  do init_def <- match functions !! "__init__" with
                 | Some f => translate_function f true
                 | None => Ok "function () {}"
                 end;
  do adefs <- for_each (λ kv : string * node,
                do v <- translate kv.2 no_kwargs;
                Ok ("'" +:+ kv.1 +:+ "': " +:+ v)) (sorted (items assigns));
  do fdefs <- for_each (λ kv : string * node,
                do v <- translate_function kv.2 true;
                Ok ("'" +:+ kv.1 +:+ "': " +:+ v))
                (filter (λ kv, kv.1 ≠ "__init__") (sorted (items functions)));
  let body' := adefs ++ fdefs in
  Ok ("var " +:+ name +:+ " = " +:+ init_def +:+ ";" +:+ nl +:+
      name +:+ ".prototype = { " +:+ join ("," +:+ nl) body' +:+ " }").

(** The name of the class of a node without a handler. *)
Definition class_name (tree : node) : string :=
  match tree with
  | Pow => "Pow"
  | Other cls => cls
  | _ => "?"
  end.

(** A handler that takes no keyword is called with [**kwargs]. *)
Definition plain (kw : kwargs) (r : result string) : result string :=
  match kw with
  | None => r
  | Some _ => Raise TypeError
  end.

(** The dispatch table of [translate], applied: [table[tree.__class__](tree, **kwargs)]. *)
Definition dispatch (tree : node) (kw : kwargs) : result string :=
  match tree with
  | FunctionDef _ _ _ => translate_function tree (default false kw)
  | Module body => plain kw (translate_module body)
  | Return value => plain kw (translate_return value)
  | Name id => plain kw (translate_name id)
  | ClassDef name body => plain kw (translate_class name body)
  | Assign targets value => plain kw (translate_assign targets value)
  | Attribute value attr => plain kw (translate_attribute value attr)
  | Num n => plain kw (translate_num n)
  | Tuple elts => plain kw (translate_tuple elts)
  | BoolOp op values => plain kw (translate_bool_op op values)
  | BinOp lhs op rhs => plain kw (translate_bin_op lhs op rhs)
  | Compare lhs ops comparators => plain kw (translate_compare lhs ops comparators)
  | UnaryOp op operand => plain kw (translate_unary_op op operand)
  | Lambda args body => plain kw (translate_lambda args body)
  | Call func args => plain kw (translate_call func args)
  | If test body orelse => plain kw (translate_if test body orelse)
  | IfExp test body orelse => plain kw (translate_if_exp test body orelse)
  | Expr value => plain kw (translate value no_kwargs)
  | And => plain kw (Ok "&&")
  | Or => plain kw (Ok "||")
  | Add => plain kw (Ok "+")
  | Sub => plain kw (Ok "-")
  | Mult => plain kw (Ok "*")
  | Div => plain kw (Ok "/")
  | Mod => plain kw (Ok "%")
  | LShift => plain kw (Ok "<<")
  | RShift => plain kw (Ok ">>")
  | BitOr => plain kw (Ok "|")
  | BitXor => plain kw (Ok "^")
  | BitAnd => plain kw (Ok "&")
  | FloorDiv => plain kw (Ok "/")
  | Invert => plain kw (Ok "~")
  | Not => plain kw (Ok "!")
  | UAdd => plain kw (Ok "+")
  | USub => plain kw (Ok "-")
  | Eq => plain kw (Ok "==")
  | Lt => plain kw (Ok "<")
  | LtE => plain kw (Ok "<=")
  | Gt => plain kw (Ok ">")
  | GtE => plain kw (Ok ">=")
  | Pow | Other _ => Raise (KeyError (class_name tree))
  end.
End handlers.

(** ** The dispatcher *)

(** [translate(tree, **kwargs)], with the depth of calls it may still make. *)
Fixpoint translate `{DictItems} (fuel : nat) (tree : node) (kw : kwargs) : result string :=
  match fuel with
  | 0 => Raise RecursionLimit
  | S fuel' => dispatch (translate fuel') tree kw
  end.

(** The order in which the entries sit in the [gmap]. *)
#[global] Instance map_order_items : DictItems :=
  {| items := map_to_list; items_perm := λ d, reflexivity (map_to_list d) |}.

(** What one statement of a body contributes. *)
Definition statement (tr : node → kwargs → result string) (n : node) : result string :=
  if is_If n then tr n no_kwargs else do t <- tr n no_kwargs; Ok (t +:+ ";").


(** ** Sample trees *)

(** [2 ** 3] *)
Definition ex_pow : node := BinOp (Num 2) Pow (Num 3).

(** [a and b and "s" and c]: four operands, the third of a class without a
    handler. *)
Definition ex_bool_op : node :=
  BoolOp And [Name "a"; Name "b"; Other "Str"; Name "c"].

(** [1 < x < 2] *)
Definition ex_chain : node := Compare (Num 1) [Lt; Lt] [Name "x"; Num 2].

(** A module of the two statements [a] and [b]. *)
Definition ex_module : node := Module [Expr (Name "a"); Expr (Name "b")].

(** [(a, b) = (1, 2)] *)
Definition ex_tuple_assign : node :=
  Assign [Tuple [Name "a"; Name "b"]] (Tuple [Num 1; Num 2]).

(** [x = (a, b) = 1 < y < 2]: the value of a two-target assignment is a
    chained comparison. *)
Definition ex_assign_chain : node :=
  Assign [Name "x"; Tuple [Name "a"; Name "b"]]
         (Compare (Num 1) [Lt; Lt] [Name "y"; Num 2]).

(** [(1 < y < 2).z = (a, b) = (1, 2, 3)] *)
Definition ex_assign_arity : node :=
  Assign [Attribute (Compare (Num 1) [Lt; Lt] [Name "y"; Num 2]) "z";
          Tuple [Name "a"; Name "b"]]
         (Tuple [Num 1; Num 2; Num 3]).

(** [def get(me): return me] *)
Definition ex_method_me : node :=
  FunctionDef "get" [Name "me"] [Return (Name "me")].

(** ** Notions used in the statements *)

(** The value cannot be taken apart by the tuple pattern [telts]: it is a
    tuple literal of another arity, or no tuple literal. *)
Definition tuple_mismatch (telts : list node) (value : node) : Prop :=
  match value with
  | Tuple velts => length telts ≠ length velts
  | _ => True
  end.

(** The [CompileError] the source raises for such a value. *)
Definition mismatch_error (value : node) : exn :=
  match value with
  | Tuple _ => CompileError "Assigning one tuple to another of different length."
  | _ => CompileError "Assigning a non-tuple to a tuple."
  end.

Definition raises_CompileError {A} (r : result A) : bool :=
  match r with
  | Raise (CompileError _) => true
  | _ => false
  end.

(** A member statement on which the first loop of [translate_class] raises
    nothing: an assignment must have one target, and that a name. *)
Definition simple_member (item : node) : bool :=
  match item with
  | Assign [Name _] _ => true
  | Assign _ _ => false
  | _ => true
  end.

(** The member that a statement of a class body declares: a simple
    assignment declares its name with the value, a function definition its
    name with the definition. *)
Definition assign_member (item : node) : option (string * node) :=
  match item with
  | Assign [Name id] v => Some (id, v)
  | _ => None
  end.

Definition function_member (item : node) : option (string * node) :=
  match item with
  | FunctionDef name _ _ => Some (name, item)
  | _ => None
  end.

(** What the last statement of the body that declares the name [k] declares
    it to be. *)
Fixpoint last_member (member : node → option (string * node))
    (body : list node) (k : string) : option node :=
  match body with
  | [] => None
  | item :: body' =>
      match last_member member body' k with
      | Some v => Some v
      | None =>
          match member item with
          | Some (k', v) => if decide (k' = k) then Some v else None
          | None => None
          end
      end
  end.

Definition last_assign : list node → string → option node := last_member assign_member.
Definition last_function : list node → string → option node := last_member function_member.

(** The constructor of a class: the member function [__init__] in
    instance-method mode, or else the empty function. *)
Definition constructor (tr : node → kwargs → result string) (body : list node) : result string :=
  match last_function body "__init__" with
  | Some f => translate_function tr f true
  | None => Ok "function () {}"
  end.

(** The entries of the prototype table. *)
Definition assign_entry (tr : node → kwargs → result string) (kv : string * node) : result string :=
  do v <- tr kv.2 no_kwargs; Ok ("'" +:+ kv.1 +:+ "': " +:+ v).

Definition method_entry (tr : node → kwargs → result string) (kv : string * node) : result string :=
  do v <- translate_function tr kv.2 true; Ok ("'" +:+ kv.1 +:+ "': " +:+ v).

(** The text of a class declaration. *)
Definition class_text (name init_def : string) (entries : list string) : string :=
  "var " +:+ name +:+ " = " +:+ init_def +:+ ";" +:+ nl +:+
  name +:+ ".prototype = { " +:+ join ("," +:+ nl) entries +:+ " }".

(** The members as the claim C1 counts them: every simple assignment and
    every function other than [__init__], once per statement. *)
Definition all_assign_members (body : list node) : list (string * node) :=
  omap assign_member body.

Definition all_function_members (body : list node) : list (string * node) :=
  filter (λ kv, kv.1 ≠ "__init__") (omap function_member body).

(** The text C1 describes for a class without [__init__]: all those members,
    each group in the order of the names. *)
Definition claimed_class_text (tr : node → kwargs → result string)
    (name : string) (body : list node) (text : string) : Prop :=
  ∃ amembers fmembers adefs fdefs,
    amembers ≡ₚ all_assign_members body ∧
    fmembers ≡ₚ all_function_members body ∧
    Sorted key_le amembers ∧ Sorted key_le fmembers ∧
    Forall2 (λ kv s, assign_entry tr kv = Ok s) amembers adefs ∧
    Forall2 (λ kv s, method_entry tr kv = Ok s) fmembers fdefs ∧
    text = class_text name "function () {}" (adefs ++ fdefs).

(** The class of the specification's example: a method [b] and the
    assignments [z = 2] and [a = 1], in this order. *)
Definition ex_class_body : list node :=
  [FunctionDef "b" [Name "self"; Name "x"] [Return (Attribute (Name "self") "x")];
   Assign [Name "z"] (Num 2);
   Assign [Name "a"] (Num 1)].

Definition ex_class : node := ClassDef "A" ex_class_body.

(** A class body that assigns to [a] twice. *)
Definition ex_class_twice_body : list node :=
  [Assign [Name "a"] (Num 1); Assign [Name "a"] (Num 2)].

Definition ex_class_twice : node := ClassDef "A" ex_class_twice_body.

(** Another enumeration of the entries of a dictionary: the one of the [gmap]
    backwards. *)
Definition reverse_order_items : DictItems :=
  {| items := λ d, reverse (map_to_list d);
     items_perm := λ d, reverse_Permutation (map_to_list d) |}.

(** ** The depth of a tree

    The number of nested calls of [translate] that a tree can give rise to.
    Formal parameters are read, not translated, and do not count. *)
Fixpoint height (t : node) : nat :=
  match t with
  | Module body => S (max_list (height <$> body))
  | FunctionDef _ _ body => S (max_list (height <$> body))
  | Return value => S (height value)
  | ClassDef _ body => S (max_list (height <$> body))
  | Assign targets value => S (max_list (height <$> targets) `max` height value)
  | Attribute value _ => S (height value)
  | Tuple elts => S (max_list (height <$> elts))
  | BoolOp op values => S (height op `max` max_list (height <$> values))
  | BinOp lhs op rhs => S (height lhs `max` (height op `max` height rhs))
  | Compare lhs ops comparators =>
      S (height lhs `max` (max_list (height <$> ops) `max` max_list (height <$> comparators)))
  | UnaryOp op operand => S (height op `max` height operand)
  | Lambda _ body => S (height body)
  | Call func args => S (height func `max` max_list (height <$> args))
  | If test body orelse =>
      S (height test `max` (max_list (height <$> body) `max` max_list (height <$> orelse)))
  | IfExp test body orelse => S (height test `max` (height body `max` height orelse))
  | Expr value => S (height value)
  | _ => 1
  end.

(** A call came back within its budget. *)
Definition within_budget {A} (r : result A) : Prop := r ≠ Raise RecursionLimit.

(** [below r r']: the call that gave [r] ran out of budget, or it gave the
    result [r']. *)
Definition below {A} (r r' : result A) : Prop :=
  r = Raise RecursionLimit ∨ r = r'.


(** The tree in which every reference to the name [self] is a reference to
    the name [this] instead.  The formal parameters of a function and the
    target of an assignment at class level are names that are bound, not
    referred to, and are left as they are. *)
Fixpoint this_for_self (t : node) : node :=
  match t with
  | Module body => Module (this_for_self <$> body)
  | FunctionDef name args body => FunctionDef name args (this_for_self <$> body)
  | Return value => Return (this_for_self value)
  | Name id => Name (if decide (id = "self") then "this" else id)
  | ClassDef name body =>
      ClassDef name ((λ item, match item with
                              | Assign targets value => Assign targets (this_for_self value)
                              | _ => this_for_self item
                              end) <$> body)
  | Assign targets value => Assign (this_for_self <$> targets) (this_for_self value)
  | Attribute value attr => Attribute (this_for_self value) attr
  | Tuple elts => Tuple (this_for_self <$> elts)
  | BoolOp op values => BoolOp (this_for_self op) (this_for_self <$> values)
  | BinOp lhs op rhs => BinOp (this_for_self lhs) (this_for_self op) (this_for_self rhs)
  | Compare lhs ops comparators =>
      Compare (this_for_self lhs) (this_for_self <$> ops) (this_for_self <$> comparators)
  | UnaryOp op operand => UnaryOp (this_for_self op) (this_for_self operand)
  | Lambda args body => Lambda args (this_for_self body)
  | Call func args => Call (this_for_self func) (this_for_self <$> args)
  | If test body orelse =>
      If (this_for_self test) (this_for_self <$> body) (this_for_self <$> orelse)
  | IfExp test body orelse =>
      IfExp (this_for_self test) (this_for_self body) (this_for_self orelse)
  | Expr value => Expr (this_for_self value)
  | _ => t
  end.

(** The same for a statement of a class body. *)
Definition this_for_self_member (item : node) : node :=
  match item with
  | Assign targets value => Assign targets (this_for_self value)
  | _ => this_for_self item
  end.

(** [def get(self, k): return f(self, self.k)] *)
Definition ex_method_refs : node :=
  FunctionDef "get" [Name "self"; Name "k"]
    [Return (Call (Name "f") [Name "self"; Attribute (Name "self") "k"])].

(** ** Further notions and sample trees *)

(** [isinstance(node, ast.Name)] and the like. *)
Definition is_Name (n : node) : bool := match n with Name _ => true | _ => false end.
Definition is_Tuple (n : node) : bool := match n with Tuple _ => true | _ => false end.
Definition is_FunctionDef (n : node) : bool :=
  match n with FunctionDef _ _ _ => true | _ => false end.

(** The classes with an entry in the dispatch table of [translate]. *)
Definition has_handler (n : node) : bool :=
  match n with
  | Pow | Other _ => false
  | _ => true
  end.

(** The statements of a class body that the first loop of [translate_class]
    files: function definitions and assignments. *)
Definition is_member (item : node) : bool :=
  match item with
  | FunctionDef _ _ _ | Assign _ _ => true
  | _ => false
  end.

(** The two messages of the assertions on a class-level assignment. *)
Definition class_assert_messages : list string :=
  ["You can only assign to a single item.";
   "You can only assign to simple names in classes"].

(** [def f((a, b), c): return c] *)
Definition ex_tuple_parameter : node :=
  FunctionDef "f" [Tuple [Name "a"; Name "b"]; Name "c"] [Return (Name "c")].

(** [def add(x, y): return x + y] *)
Definition ex_add : node :=
  FunctionDef "add" [Name "x"; Name "y"] [Return (BinOp (Name "x") Add (Name "y"))].

(** [if a: b] followed by [c], then a string and a chained comparison. *)
Definition ex_statements : list node :=
  [If (Name "a") [Expr (Name "b")] []; Expr (Name "c")].

Definition ex_failing_statements : list node :=
  ex_statements ++ Expr (Other "Str") :: [Expr ex_chain].

(** [if a: x elif b: y else: z], as the parser nests it. *)
Definition ex_elif : node :=
  If (Name "a") [Expr (Name "x")]
     [If (Name "b") [Expr (Name "y")] [Expr (Name "z")]].

(** [f("s", 1 < x < 2)] with an unknown callee class. *)
Definition ex_call_failing : node :=
  Call (Other "Subscript") [Num 1; ex_chain; Other "Str"].

(** [a = b.c = 1] *)
Definition ex_chained_assign : node :=
  Assign [Name "a"; Attribute (Name "b") "c"] (Num 1).

(** A class body with a string (a docstring), a [pass]-like statement and
    a nested class between its members. *)
Definition ex_class_with_extras : list node :=
  [Expr (Other "Str"); Assign [Name "z"] (Num 2); Other "Pass";
   ClassDef "Inner" []; FunctionDef "b" [Name "self"] [Return (Name "self")]].

(** A class body that assigns to an attribute. *)
Definition ex_class_attribute_target : list node :=
  [FunctionDef "b" [Name "self"] [Return (Other "Str")];
   Assign [Attribute (Name "a") "b"] (Num 1)].
(** ** Loops and the exception monad *)

Lemma bind_Ok {A B} (m : result A) (k : A → result B) b :
  bind m k = Ok b ↔ ∃ a, m = Ok a ∧ k a = Ok b.
Proof.
  destruct m as [a|e]; simpl.
  - split; [eauto|]. by intros (a' & [= <-] & Hk).
  - split; [done|]. by intros (a' & ? & _).
Qed.

Lemma for_each_Ok {A B} (f : A → result B) l ys :
  for_each f l = Ok ys ↔ Forall2 (λ x y, f x = Ok y) l ys.
Proof.
  revert ys. induction l as [|x l IH]; intros ys; simpl.
  - split; [by intros [= <-]; constructor|]. by inversion 1.
  - rewrite bind_Ok. split.
    + intros (y & Hy & Hrest). apply bind_Ok in Hrest as (ys' & Hys' & [= <-]).
      constructor; [done|]. by apply IH.
    + inversion 1 as [|? y ? ys' Hy Hys']; subst. exists y. split; [done|].
      apply IH in Hys'. by rewrite Hys'.
Qed.

(** The loop stops at the first element whose round raises. *)
Lemma for_each_app_Raise {A B} (f : A → result B) pre x post ys e :
  for_each f pre = Ok ys → f x = Raise e → for_each f (pre ++ x :: post) = Raise e.
Proof.
  revert ys. induction pre as [|p pre IH]; intros ys; simpl.
  - by intros _ ->.
  - destruct (f p) as [y|e']; simpl; [|done].
    destruct (for_each f pre) as [ys'|e'] eqn:Hpre; simpl; [|done].
    intros _ Hx. by rewrite (IH ys').
Qed.

(** Whatever the earlier rounds do, a round that raises keeps the loop from
    returning. *)
Lemma for_each_not_Ok {A B} (f : A → result B) pre x post e :
  f x = Raise e → ∃ e', for_each f (pre ++ x :: post) = Raise e'.
Proof.
  intros Hx. induction pre as [|p pre [e' IH]]; simpl.
  - rewrite Hx. eauto.
  - destruct (f p); simpl; [|eauto]. rewrite IH. eauto.
Qed.

(** ** Independence of the recursion budget and of the dictionary order *)

Lemma below_refl {A} (r : result A) : below r r.
Proof. by right. Qed.

Lemma below_bind {A B} (m m' : result A) (k k' : A → result B) :
  below m m' → (∀ a, below (k a) (k' a)) → below (bind m k) (bind m' k').
Proof.
  intros [->| ->] Hk; [by left|]. destruct m'; simpl; [apply Hk|by right].
Qed.

Lemma below_for_each {A B} (f f' : A → result B) l :
  (∀ x, below (f x) (f' x)) → below (for_each f l) (for_each f' l).
Proof.
  intros Hf. induction l as [|x l IH]; simpl; [apply below_refl|].
  apply below_bind; [apply Hf|]. intros y.
  apply below_bind; [apply IH|]. intros. apply below_refl.
Qed.

Lemma below_plain kw (r r' : result string) :
  below r r' → below (plain kw r) (plain kw r').
Proof. destruct kw; simpl; [intros; apply below_refl|done]. Qed.

(** Goals of the shape [below (handler tr ..) (handler tr' ..)]: walk down
    the binds and loops of the handler. *)
Ltac below_step :=
  first
    [ apply below_refl
    | apply below_plain
    | apply below_bind; [|intros ?]
    | apply below_for_each; intros ?
    | match goal with
      | |- below (match ?x with _ => _ end) (match ?x with _ => _ end) => destruct x
      | |- below (if ?x then _ else _) (if ?x then _ else _) => destruct x
      | H : ∀ n kw, below (_ n kw) (_ n kw) |- _ => apply H
      end ].
Ltac below_solve := repeat below_step.

(** *** Sorting the entries of a dictionary *)

#[global] Instance key_le_trans : Transitive key_le.
Proof. intros x y z. unfold key_le. apply transitivity. Qed.

#[global] Instance key_le_total : Total key_le.
Proof. intros x y. unfold key_le. apply total, _. Qed.

Lemma sorted_Permutation l : sorted l ≡ₚ l.
Proof. apply merge_sort_Permutation. Qed.

Lemma sorted_StronglySorted l : StronglySorted key_le (sorted l).
Proof. apply StronglySorted_merge_sort; apply _. Qed.

Lemma elem_of_sorted l kv : kv ∈ sorted l ↔ kv ∈ l.
Proof. by rewrite sorted_Permutation. Qed.

(** Two enumerations of the same entries are sorted to the same list, as no
    key occurs twice. *)
Lemma sorted_unique l1 l2 :
  l1 ≡ₚ l2 →
  (∀ k v1 v2, (k, v1) ∈ l1 → (k, v2) ∈ l1 → v1 = v2) →
  sorted l1 = sorted l2.
Proof.
  intros Hperm Hfun. apply (StronglySorted_unique_strong key_le).
  - intros [k1 v1] [k2 v2] H1 H2 Hle Hge.
    rewrite elem_of_sorted in H1. rewrite elem_of_sorted, <-Hperm in H2.
    unfold key_le in *; simpl in *.
    assert (k1 = k2) as -> by (by apply (anti_symm String.le)).
    f_equal. eauto.
  - apply sorted_StronglySorted.
  - apply sorted_StronglySorted.
  - by rewrite !sorted_Permutation.
Qed.

Lemma elem_of_items `{DictItems} (d : dict) k v : (k, v) ∈ items d ↔ d !! k = Some v.
Proof. rewrite items_perm. apply elem_of_map_to_list. Qed.

Lemma sorted_items (I1 I2 : DictItems) (d : dict) :
  sorted (@items I1 d) = sorted (@items I2 d).
Proof.
  apply sorted_unique.
  - by rewrite !items_perm.
  - intros k v1 v2 H1%elem_of_items H2%elem_of_items. congruence.
Qed.

(** The keys come out in strictly increasing order. *)
Lemma sorted_items_keys `{DictItems} (d : dict) :
  StronglySorted (strict String.le) (sorted (items d)).*1.
Proof.
  assert (NoDup (sorted (items d)).*1) as Hnd.
  { rewrite sorted_Permutation, items_perm. apply NoDup_fst_map_to_list. }
  pose proof (sorted_StronglySorted (items d)) as Hs.
  induction Hs as [|[k v] l Hl IH Hk]; simpl in *; [constructor|].
  apply NoDup_cons in Hnd as [Hk' Hnd]. constructor; [by apply IH|].
  apply Forall_fmap, Forall_forall. intros [k2 v2] Hin.
  rewrite Forall_forall in Hk. specialize (Hk _ Hin). unfold key_le in Hk. simpl in *.
  split; [done|]. intros Hge.
  assert (k = k2) as -> by (by apply (anti_symm String.le)).
  apply Hk'. by apply (list_elem_of_fmap_2 fst _ (k2, v2)).
Qed.

Section below_handlers.
Context (I1 I2 : DictItems).
Variables tr tr' : node → kwargs → result string.
Hypothesis Htr : ∀ n kw, below (tr n kw) (tr' n kw).

Lemma translate_body_below body sep sep' :
  below (translate_body tr body sep) (translate_body tr' body sep').
Proof. unfold translate_body. below_solve. Qed.

Lemma translate_function_below fn im :
  below (translate_function tr fn im) (translate_function tr' fn im).
Proof.
  unfold translate_function. destruct fn; try apply below_refl.
  destruct im; below_solve; apply translate_body_below.
Qed.

Lemma assign_target_below value target :
  below (assign_target tr value target) (assign_target tr' value target).
Proof. unfold assign_target. below_solve. Qed.

Lemma translate_class_below name body :
  below (@translate_class I1 tr name body) (@translate_class I2 tr' name body).
Proof.
  unfold translate_class.
  apply below_bind; [apply below_refl|]. intros [functions assigns].
  rewrite (sorted_items I1 I2 assigns), (sorted_items I1 I2 functions).
  apply below_bind.
  { destruct (functions !! "__init__"); [apply translate_function_below|apply below_refl]. }
  intros init_def. below_solve. apply translate_function_below.
Qed.

Lemma dispatch_below tree kw :
  below (@dispatch I1 tr tree kw) (@dispatch I2 tr' tree kw).
Proof.
  destruct tree; cbv beta iota delta [dispatch]; try apply below_plain;
    first
      [ apply below_refl
      | apply Htr
      | apply translate_function_below
      | apply translate_class_below
      | unfold translate_module, translate_return, translate_name, translate_assign,
          translate_attribute, translate_num, translate_tuple, translate_bool_op,
          translate_bin_op, translate_compare, translate_unary_op, translate_lambda,
          translate_call, translate_if, translate_if_exp;
        below_solve;
        first [apply translate_body_below | apply assign_target_below] ].
Qed.
End below_handlers.

(** More budget, or another order of the dictionary entries, changes the
    result of no call that came back within its budget. *)
Lemma translate_below (I1 I2 : DictItems) fuel extra tree kw :
  below (@translate I1 fuel tree kw) (@translate I2 (fuel + extra) tree kw).
Proof.
  revert tree kw. induction fuel as [|fuel IH]; intros tree kw; [by left|].
  simpl. by apply dispatch_below.
Qed.

Lemma translate_fuel_mono `{DictItems} fuel fuel' tree kw r :
  fuel ≤ fuel' → translate fuel tree kw = r → r ≠ Raise RecursionLimit →
  translate fuel' tree kw = r.
Proof.
  intros Hle <- Hr. replace fuel' with (fuel + (fuel' - fuel)) by lia.
  by destruct (translate_below _ _ fuel (fuel' - fuel) tree kw) as [?|<-].
Qed.

(** ** Statements of the single handlers *)

Lemma translate_S `{DictItems} fuel tree kw :
  translate (S fuel) tree kw = dispatch (translate fuel) tree kw.
Proof. reflexivity. Qed.




(** The separator handed to [translate_body] has no effect on its result. *)
Lemma translate_body_line_separator tr body sep sep' :
  translate_body tr body sep = translate_body tr body sep'.
Proof. reflexivity. Qed.

Lemma translate_body_Ok tr body sep stmts :
  Forall2 (λ n s, statement tr n = Ok s) body stmts →
  translate_body tr body sep = Ok (join nl stmts).
Proof.
  intros Hs%for_each_Ok. unfold translate_body. unfold statement in Hs.
  by rewrite Hs.
Qed.

(** The pairs of a tuple-to-tuple assignment, in step. *)
Lemma zip_assignments tr telts velts ts vs :
  Forall2 (λ t s, tr t no_kwargs = Ok s) telts ts →
  Forall2 (λ v s, tr v no_kwargs = Ok s) velts vs →
  for_each (λ tv : node * node,
      do value' <- tr tv.2 no_kwargs;
      do target' <- tr tv.1 no_kwargs;
      Ok (target' +:+ " = " +:+ value')) (zip telts velts)
  = Ok (zip_with (λ t v, t +:+ " = " +:+ v) ts vs).
Proof.
  intros Ht. revert velts vs.
  induction Ht as [|t s telts ts Hs _ IH]; intros velts vs Hv; [done|].
  destruct Hv as [|v s' velts vs Hs' Hv]; [done|].
  simpl. rewrite Hs', Hs. simpl. by rewrite (IH _ _ Hv).
Qed.

(** ** Every tree is translated within a budget of its depth *)

Lemma within_budget_bind {A B} (m : result A) (k : A → result B) :
  within_budget m → (∀ a, within_budget (k a)) → within_budget (bind m k).
Proof.
  intros Hm Hk. destruct m as [a|e]; simpl; [apply Hk|].
  intros [= ->]. by apply Hm.
Qed.

Lemma within_budget_for_each {A B} (f : A → result B) l :
  Forall (λ x, within_budget (f x)) l → within_budget (for_each f l).
Proof.
  induction 1 as [|x l Hx _ IH]; simpl; [done|].
  apply within_budget_bind; [done|]. intros y.
  apply within_budget_bind; [done|]. done.
Qed.

Lemma within_budget_arg_ids args : within_budget (for_each arg_id args).
Proof. apply within_budget_for_each, Forall_forall. by intros []. Qed.

Lemma max_list_height_le (l : list node) h :
  max_list (height <$> l) ≤ h ↔ Forall (λ n, height n ≤ h) l.
Proof.
  induction l as [|n l IH].
  - split; [constructor|simpl; intros; lia].
  - rewrite fmap_cons, Forall_cons, <-IH. simpl. lia.
Qed.

Lemma class_members_budget fa body : within_budget (class_members fa body).
Proof.
  revert fa. induction body as [|item body IH]; intros [functions assigns]; [done|].
  cbn [class_members]. apply within_budget_bind; [|done].
  destruct item; try done. simpl.
  apply within_budget_bind; [unfold assert; by destruct (bool_decide _)|].
  intros _. by destruct targets as [|[] ?].
Qed.

Section budget_handlers.
Context `{DictItems}.
Variable tr : node → kwargs → result string.
Variable h : nat.
Hypothesis Htr : ∀ n kw, height n ≤ h → within_budget (tr n kw).

Lemma translate_body_budget body sep :
  Forall (λ n, height n ≤ h) body → within_budget (translate_body tr body sep).
Proof.
  intros Hbody. unfold translate_body. apply within_budget_bind; [|done].
  apply within_budget_for_each. eapply Forall_impl; [done|]. intros n Hn. simpl.
  destruct (is_If n); [by apply Htr|].
  apply within_budget_bind; [by apply Htr|done].
Qed.

Lemma translate_function_budget fn im :
  height fn ≤ S h → within_budget (translate_function tr fn im).
Proof.
  destruct fn; try done. simpl. intros Hh%le_S_n%max_list_height_le.
  destruct im; (apply within_budget_bind; [apply within_budget_arg_ids|]; intros ids;
    apply within_budget_bind; [by apply translate_body_budget|done]).
Qed.

Lemma assign_target_budget value target :
  height value ≤ h → height target ≤ h → within_budget (assign_target tr value target).
Proof.
  intros Hv Ht.
  assert (within_budget (do value' <- tr value no_kwargs;
                         do target' <- tr target no_kwargs;
                         Ok [target' +:+ " = " +:+ value'])) as Hplain.
  { apply within_budget_bind; [by apply Htr|]. intros v.
    apply within_budget_bind; [by apply Htr|done]. }
  destruct target; try exact Hplain. clear Hplain.
  destruct value; try done. simpl. destruct (decide _); [done|].
  simpl in Hv, Ht.
  apply Nat.lt_le_incl, max_list_height_le in Hv.
  apply Nat.lt_le_incl, max_list_height_le in Ht.
  apply within_budget_for_each, Forall_forall. intros [t v] Hin.
  apply elem_of_zip_l in Hin as Hin1. apply elem_of_zip_r in Hin as Hin2.
  rewrite Forall_forall in Hv, Ht. simpl in *.
  apply within_budget_bind; [by apply Htr, Hv|]. intros v'.
  apply within_budget_bind; [by apply Htr, Ht|done].
Qed.

Lemma class_members_height body (functions0 assigns0 functions assigns : dict) :
  Forall (λ n, height n ≤ h) body →
  map_Forall (λ _ v, height v ≤ h) functions0 →
  map_Forall (λ _ v, height v ≤ h) assigns0 →
  class_members (functions0, assigns0) body = Ok (functions, assigns) →
  map_Forall (λ _ v, height v ≤ h) functions ∧ map_Forall (λ _ v, height v ≤ h) assigns.
Proof.
  intros Hbody. revert functions0 assigns0.
  induction Hbody as [|item body Hitem _ IH]; intros functions0 assigns0 Hf0 Ha0.
  { by intros [= <- <-]. }
  cbn [class_members]. intros ([functions1 assigns1] & Hstep & Hrest)%bind_Ok.
  apply (IH functions1 assigns1); [| |done].
  - destruct item; simpl in Hstep; try (by injection Hstep as <- <-).
    + injection Hstep as <- <-. by apply map_Forall_insert_2.
    + apply bind_Ok in Hstep as (_ & _ & Hstep).
      destruct targets as [|[] ?]; try done. by injection Hstep as <- <-.
  - destruct item; simpl in Hstep; try (by injection Hstep as <- <-).
    apply bind_Ok in Hstep as (_ & _ & Hstep).
    destruct targets as [|[] ?]; try done. injection Hstep as <- <-.
    apply map_Forall_insert_2; [|done]. simpl in Hitem. lia.
Qed.

Lemma translate_class_budget name body :
  Forall (λ n, height n ≤ h) body → within_budget (translate_class tr name body).
Proof.
  intros Hbody. unfold translate_class.
  destruct (class_members (∅, ∅) body) as [[functions assigns]|e] eqn:Hcm; simpl.
  2: { pose proof (class_members_budget (∅, ∅) body) as Hb. rewrite Hcm in Hb.
       intros [= ->]. by apply Hb. }
  destruct (class_members_height body ∅ ∅ functions assigns Hbody) as [Hf Ha];
    [apply map_Forall_empty..|done|].
  apply within_budget_bind.
  { destruct (functions !! "__init__") as [f|] eqn:Hinit; [|done].
    apply translate_function_budget. apply Hf in Hinit. simpl in Hinit. lia. }
  intros init_def. apply within_budget_bind.
  { apply within_budget_for_each, Forall_forall.
    intros [k v] Hin%elem_of_sorted%elem_of_items. simpl.
    apply within_budget_bind; [|done]. apply Htr. by apply Ha in Hin. }
  intros adefs. apply within_budget_bind; [|done].
  apply within_budget_for_each, Forall_forall.
  intros [k v] [_ Hin%elem_of_sorted%elem_of_items]%list_elem_of_filter. simpl.
  apply within_budget_bind; [|done].
  apply translate_function_budget. apply Hf in Hin. simpl in Hin. lia.
Qed.

Lemma for_each_translate_budget (l : list node) :
  Forall (λ n, height n ≤ h) l → within_budget (for_each (λ n, tr n no_kwargs) l).
Proof.
  intros Hl. apply within_budget_for_each. eapply Forall_impl; [done|].
  intros n Hn. by apply Htr.
Qed.

Lemma index_budget (l : list node) i :
  Forall (λ n, height n ≤ h) l →
  within_budget (do v <- index l i; tr v no_kwargs).
Proof.
  intros Hl. unfold index. destruct (l !! i) as [v|] eqn:Hi; simpl; [|done].
  apply Htr. rewrite Forall_forall in Hl. apply Hl. by eapply list_elem_of_lookup_2.
Qed.

Lemma plain_budget kw r : within_budget r → within_budget (plain kw r).
Proof. by destruct kw. Qed.

Lemma dispatch_budget tree kw :
  height tree ≤ S h → within_budget (dispatch tr tree kw).
Proof.
  intros Hh.
  destruct tree; cbv beta iota delta [dispatch]; try (by apply plain_budget);
    try apply plain_budget; simpl in Hh;
    try (by apply translate_function_budget);
    unfold translate_module, translate_return, translate_assign, translate_name,
      translate_num, translate_tuple, translate_attribute, translate_bool_op, translate_bin_op, translate_compare,
      translate_unary_op, translate_lambda, translate_call, translate_if,
      translate_if_exp, assert;
    repeat first
      [ done
      | apply Htr; lia
      | apply translate_body_budget, max_list_height_le; lia
      | apply translate_class_budget, max_list_height_le; lia
      | apply for_each_translate_budget;
        repeat (apply Forall_cons; split; [lia|]); first [apply Forall_nil | apply max_list_height_le; lia]
      | apply index_budget, max_list_height_le; lia
      | apply within_budget_arg_ids
      | apply within_budget_bind; [|intros ?]
      | match goal with
        | |- within_budget (if ?b then _ else _) => destruct b
        | |- within_budget (match ?x with _ => _ end) => destruct x
        end ].
  apply within_budget_for_each, Forall_forall. intros target Hin.
  apply assign_target_budget; [lia|].
  assert (Forall (λ n, height n ≤ h) targets) as Hall
    by (apply max_list_height_le; lia).
  rewrite Forall_forall in Hall. by apply Hall.
Qed.
End budget_handlers.

(** A budget of the depth of the tree is enough. *)
Lemma translate_budget `{DictItems} fuel tree kw :
  height tree ≤ fuel → within_budget (translate fuel tree kw).
Proof.
  revert tree kw. induction fuel as [|fuel IH]; intros tree kw Hh.
  - destruct tree; simpl in Hh; lia.
  - rewrite translate_S. apply dispatch_budget with (h := fuel); [|done].
    intros n kw' Hn. by apply IH.
Qed.

(** So every call has a result that no larger budget changes. *)
Lemma translate_total `{DictItems} tree kw :
  ∃ r, within_budget r ∧ ∀ fuel, height tree ≤ fuel → translate fuel tree kw = r.
Proof.
  exists (translate (height tree) tree kw). split; [by apply translate_budget|].
  intros fuel Hfuel.
  apply (translate_fuel_mono (height tree) fuel); [done|done|by apply translate_budget].
Qed.



(** ** References to the name [self] *)

Lemma for_each_ext {A B} (f g : A → result B) l :
  (∀ x, f x = g x) → for_each f l = for_each g l.
Proof. intros Hfg. induction l as [|x l IH]; simpl; [done|]. by rewrite Hfg, IH. Qed.

Lemma for_each_fmap {A B C} (f : B → result C) (g : A → B) l :
  for_each f (g <$> l) = for_each (λ x, f (g x)) l.
Proof. induction l as [|x l IH]; [done|]. rewrite fmap_cons. simpl. by rewrite IH. Qed.

Lemma is_If_this_for_self n : is_If (this_for_self n) = is_If n.
Proof. by destruct n. Qed.

Lemma is_Pow_this_for_self n : is_Pow (this_for_self n) = is_Pow n.
Proof. by destruct n. Qed.

(** Sorting the entries of a dictionary after a function has been applied to
    its values gives the sorted entries with the function applied. *)
Lemma sorted_items_fmap `{DictItems} (g : node → node) (d : dict) :
  sorted (items (g <$> d)) = prod_map id g <$> sorted (items d).
Proof.
  apply (StronglySorted_unique_strong key_le).
  - intros [k1 v1] [k2 v2] H1%elem_of_sorted%elem_of_items H2 Hle Hge.
    apply list_elem_of_fmap in H2 as ([k v] & [= -> ->] & Hkv%elem_of_sorted%elem_of_items).
    unfold key_le in *; simpl in *.
    assert (k1 = k) as -> by (by apply (anti_symm String.le)).
    rewrite lookup_fmap, Hkv in H1. simpl in H1. congruence.
  - apply sorted_StronglySorted.
  - apply (StronglySorted_fmap _ key_le key_le); [|apply sorted_StronglySorted].
    by intros [] [].
  - by rewrite !sorted_Permutation, !items_perm, map_to_list_fmap.
Qed.

Lemma filter_not_init_fmap (g : node → node) (l : list (string * node)) :
  filter (λ kv : string * node, kv.1 ≠ "__init__") (prod_map id g <$> l)
  = prod_map id g <$> filter (λ kv : string * node, kv.1 ≠ "__init__") l.
Proof.
  induction l as [|[k v] l IH]; [done|].
  rewrite fmap_cons, !filter_cons. simpl. destruct (decide (k ≠ "__init__")); by rewrite IH.
Qed.

Section this_for_self_handlers.
Context `{DictItems}.
Variable tr : node → kwargs → result string.
Hypothesis Htr : ∀ n kw, tr (this_for_self n) kw = tr n kw.

Lemma for_each_this_for_self (l : list node) :
  for_each (λ n, tr n no_kwargs) (this_for_self <$> l) = for_each (λ n, tr n no_kwargs) l.
Proof. rewrite for_each_fmap. apply for_each_ext. intros n. apply Htr. Qed.

Lemma translate_body_this_for_self body sep :
  translate_body tr (this_for_self <$> body) sep = translate_body tr body sep.
Proof.
  unfold translate_body. rewrite for_each_fmap. f_equal.
  apply for_each_ext. intros n. by rewrite is_If_this_for_self, Htr.
Qed.

Lemma translate_function_this_for_self fn instance_method :
  translate_function tr (this_for_self fn) instance_method
  = translate_function tr fn instance_method.
Proof.
  destruct fn; try done. cbn [this_for_self]. unfold translate_function.
  by rewrite translate_body_this_for_self.
Qed.

Lemma index_this_for_self (l : list node) i :
  (do v <- index (this_for_self <$> l) i; tr v no_kwargs)
  = (do v <- index l i; tr v no_kwargs).
Proof.
  unfold index. rewrite list_lookup_fmap. destruct (l !! i); simpl; [apply Htr|done].
Qed.

Lemma for_each_zip_this_for_self (telts velts : list node) :
  for_each (λ tv : node * node,
      do value' <- tr tv.2 no_kwargs;
      do target' <- tr tv.1 no_kwargs;
      Ok (target' +:+ " = " +:+ value'))
    (zip (this_for_self <$> telts) (this_for_self <$> velts))
  = for_each (λ tv : node * node,
      do value' <- tr tv.2 no_kwargs;
      do target' <- tr tv.1 no_kwargs;
      Ok (target' +:+ " = " +:+ value')) (zip telts velts).
Proof.
  revert velts. induction telts as [|t telts IH]; intros [|v velts]; try done.
  rewrite !fmap_cons. simpl. by rewrite !Htr, IH.
Qed.

Lemma assign_target_this_for_self value target :
  assign_target tr (this_for_self value) (this_for_self target)
  = assign_target tr value target.
Proof.
  destruct (is_Tuple target) eqn:Htuple.
  - destruct target; try done. cbn [this_for_self].
    destruct value; try done. cbn [this_for_self]. unfold assign_target.
    rewrite !length_fmap. destruct (decide _); [done|].
    apply for_each_zip_this_for_self.
  - assert (assign_target tr value target
            = (do value' <- tr value no_kwargs;
               do target' <- tr target no_kwargs;
               Ok [target' +:+ " = " +:+ value'])) as -> by (by destruct target).
    assert (assign_target tr (this_for_self value) (this_for_self target)
            = (do value' <- tr (this_for_self value) no_kwargs;
               do target' <- tr (this_for_self target) no_kwargs;
               Ok [target' +:+ " = " +:+ value'])) as -> by (by destruct target).
    by rewrite !Htr.
Qed.
End this_for_self_handlers.

Lemma this_for_self_ClassDef name body :
  this_for_self (ClassDef name body) = ClassDef name (this_for_self_member <$> body).
Proof. reflexivity. Qed.

Lemma class_member_this_for_self (functions assigns : dict) item :
  class_member (this_for_self <$> functions, this_for_self <$> assigns)
    (this_for_self_member item)
  = (do fa <- class_member (functions, assigns) item;
     Ok (this_for_self <$> fa.1, this_for_self <$> fa.2)).
Proof.
  destruct item; try done.
  - cbn [this_for_self_member this_for_self class_member bind fst snd].
    by rewrite fmap_insert.
  - cbn [this_for_self_member class_member]. unfold assert.
    destruct (bool_decide (length targets = 1)); [|done]. simpl.
    destruct targets as [|[] ?]; try done. simpl. by rewrite fmap_insert.
Qed.

Lemma class_members_this_for_self (functions assigns : dict) body :
  class_members (this_for_self <$> functions, this_for_self <$> assigns)
    (this_for_self_member <$> body)
  = (do fa <- class_members (functions, assigns) body;
     Ok (this_for_self <$> fa.1, this_for_self <$> fa.2)).
Proof.
  revert functions assigns. induction body as [|item body IH]; intros functions assigns.
  { done. }
  rewrite fmap_cons. cbn [class_members]. rewrite class_member_this_for_self.
  destruct (class_member (functions, assigns) item) as [[functions1 assigns1]|e]; [|done].
  simpl. apply IH.
Qed.

Lemma class_members_this_for_self_empty body :
  class_members (∅, ∅) (this_for_self_member <$> body)
  = (do fa <- class_members (∅, ∅) body;
     Ok (this_for_self <$> fa.1, this_for_self <$> fa.2)).
Proof.
  pose proof (class_members_this_for_self ∅ ∅ body) as Hcm.
  by rewrite !fmap_empty in Hcm.
Qed.

Section this_for_self_dispatch.
Context `{DictItems}.
Variable tr : node → kwargs → result string.
Hypothesis Htr : ∀ n kw, tr (this_for_self n) kw = tr n kw.

Lemma translate_class_this_for_self name body :
  translate_class tr name (this_for_self_member <$> body) = translate_class tr name body.
Proof.
  unfold translate_class.
  rewrite class_members_this_for_self_empty.
  destruct (class_members (∅, ∅) body) as [[functions assigns]|e]; [|done].
  cbn [bind fst snd]. rewrite lookup_fmap.
  assert (match this_for_self <$> functions !! "__init__" with
          | Some f => translate_function tr f true
          | None => Ok "function () {}"
          end
          = match functions !! "__init__" with
            | Some f => translate_function tr f true
            | None => Ok "function () {}"
            end) as ->.
  { destruct (functions !! "__init__"); simpl; [|done].
    by apply translate_function_this_for_self. }
  rewrite !sorted_items_fmap.
  rewrite filter_not_init_fmap.
  rewrite !for_each_fmap.
  f_equal.
  assert (∀ l : list (string * node),
    for_each (λ x, do v <- tr (prod_map id this_for_self x).2 no_kwargs;
                   Ok ("'" +:+ (prod_map id this_for_self x).1 +:+ "': " +:+ v)) l
    = for_each (λ kv : string * node,
                   do v <- tr kv.2 no_kwargs; Ok ("'" +:+ kv.1 +:+ "': " +:+ v)) l) as ->.
  { intros l. apply for_each_ext. intros [k v]. simpl. by rewrite Htr. }
  assert (∀ l : list (string * node),
    for_each (λ x, do v <- translate_function tr (prod_map id this_for_self x).2 true;
                   Ok ("'" +:+ (prod_map id this_for_self x).1 +:+ "': " +:+ v)) l
    = for_each (λ kv : string * node,
                   do v <- translate_function tr kv.2 true;
                   Ok ("'" +:+ kv.1 +:+ "': " +:+ v)) l) as ->.
  { intros l. apply for_each_ext. intros [k v]. simpl.
    by rewrite translate_function_this_for_self. }
  done.
Qed.

Lemma dispatch_this_for_self tree kw :
  dispatch tr (this_for_self tree) kw = dispatch tr tree kw.
Proof.
  destruct tree; try done;
    try (by apply (translate_function_this_for_self tr Htr (FunctionDef _ _ _)));
    try rewrite this_for_self_ClassDef; cbn [this_for_self dispatch];
    unfold translate_module, translate_return, translate_name, translate_assign,
      translate_attribute, translate_bool_op, translate_bin_op, translate_compare,
      translate_unary_op, translate_lambda, translate_call, translate_if,
      translate_if_exp;
    rewrite ?translate_class_this_for_self, ?is_Pow_this_for_self, ?length_fmap,
      ?(index_this_for_self tr Htr), ?(translate_body_this_for_self tr Htr),
      ?(for_each_this_for_self tr Htr);
    try done.
  - by rewrite Htr.
  - by repeat (destruct (decide _); simplify_eq).
  - rewrite for_each_fmap. do 2 f_equal. apply for_each_ext. intros target.
    by apply assign_target_this_for_self.
  - by rewrite Htr.
  - by rewrite Htr.
  - simpl. by rewrite !Htr.
  - by rewrite Htr.
  - simpl. by rewrite !Htr.
  - match goal with
    | |- context [translate_body tr [this_for_self ?b] ?s] =>
        change (translate_body tr [this_for_self b] s)
          with (translate_body tr (this_for_self <$> [b]) s)
    end.
    by rewrite translate_body_this_for_self.
  - by rewrite Htr.
  - rewrite Htr. by destruct orelse.
  - by rewrite !Htr.
  - by rewrite Htr.
Qed.
End this_for_self_dispatch.

(** A tree and the tree with [this] for every reference to [self] have the
    same translation. *)
Lemma translate_this_for_self `{DictItems} fuel tree kw :
  translate fuel (this_for_self tree) kw = translate fuel tree kw.
Proof.
  revert tree kw. induction fuel as [|fuel IH]; intros tree kw; [done|].
  rewrite !translate_S. by apply dispatch_this_for_self.
Qed.

(** ** The claims *)

(** *** C1: class declarations *)

(** One round of the first loop of [translate_class] on a simple member. *)
Lemma class_member_spec item (functions0 assigns0 : dict) :
  simple_member item = true →
  ∃ functions1 assigns1 : dict,
    class_member (functions0, assigns0) item = Ok (functions1, assigns1) ∧
    (∀ k, functions1 !! k = match function_member item with
                            | Some (k', f) => if decide (k' = k) then Some f
                                              else functions0 !! k
                            | None => functions0 !! k
                            end) ∧
    (∀ k, assigns1 !! k = match assign_member item with
                          | Some (k', v) => if decide (k' = k) then Some v
                                            else assigns0 !! k
                          | None => assigns0 !! k
                          end).
Proof.
  intros Hitem. destruct item; try (by eexists _, _).
  - eexists _, _. split; [done|]. split; [|done].
    intros k. simpl. destruct (decide (name = k)) as [->|];
      [by rewrite lookup_insert_eq|by rewrite lookup_insert_ne].
  - destruct targets as [|[] [|]]; try done.
    eexists _, _. split; [done|]. split; [done|].
    intros k. simpl. destruct (decide (id = k)) as [->|];
      [by rewrite lookup_insert_eq|by rewrite lookup_insert_ne].
Qed.

(** The two dictionaries that the first loop of [translate_class] builds
    hold, under each name, the last member of that name. *)
Lemma class_members_spec body (functions0 assigns0 : dict) :
  forallb simple_member body = true →
  ∃ functions assigns : dict,
    class_members (functions0, assigns0) body = Ok (functions, assigns) ∧
    (∀ k, functions !! k = match last_function body k with
                           | Some f => Some f
                           | None => functions0 !! k
                           end) ∧
    (∀ k, assigns !! k = match last_assign body k with
                         | Some v => Some v
                         | None => assigns0 !! k
                         end).
Proof.
  revert functions0 assigns0.
  induction body as [|item body IH]; intros functions0 assigns0 Hok.
  { exists functions0, assigns0. by simpl. }
  simpl in Hok. apply andb_prop in Hok as [Hitem Hok].
  destruct (class_member_spec item functions0 assigns0 Hitem)
    as (functions1 & assigns1 & Hstep & Hf1 & Ha1).
  destruct (IH functions1 assigns1 Hok) as (functions & assigns & Hrest & Hf & Ha).
  exists functions, assigns. split; [|split].
  - cbn [class_members]. by rewrite Hstep.
  - intros k. rewrite Hf. unfold last_function. cbn [last_member].
    destruct (last_member function_member body k); [done|].
    rewrite Hf1. destruct (function_member item) as [[k' f]|]; [|done].
    by destruct (decide _).
  - intros k. rewrite Ha. unfold last_assign. cbn [last_member].
    destruct (last_member assign_member body k); [done|].
    rewrite Ha1. destruct (assign_member item) as [[k' v]|]; [|done].
    by destruct (decide _).
Qed.

(** With the members in [dict]s: the dictionaries of [translate_class]. *)
Lemma class_members_lookup body :
  forallb simple_member body = true →
  ∃ functions assigns : dict,
    class_members (∅, ∅) body = Ok (functions, assigns) ∧
    (∀ k, functions !! k = last_function body k) ∧
    (∀ k, assigns !! k = last_assign body k).
Proof.
  intros Hok.
  destruct (class_members_spec body ∅ ∅ Hok) as (functions & assigns & Hcm & Hf & Ha).
  exists functions, assigns. split; [done|]. split; intros k.
  - rewrite Hf. by destruct (last_function body k).
  - rewrite Ha. by destruct (last_assign body k).
Qed.

(** When no name is declared twice, the last member of a name is the member
    of that name, wherever it stands. *)
Lemma last_member_NoDup member body k v :
  NoDup (omap member body).*1 →
  last_member member body k = Some v ↔ (k, v) ∈ omap member body.
Proof.
  revert v. induction body as [|item body IH]; intros v Hnd.
  { simpl. split; [done|]. by intros ?%elem_of_nil. }
  cbn [last_member omap list_omap] in *.
  destruct (member item) as [[k' v']|]; [|by destruct (last_member member body k); apply IH].
  rewrite fmap_cons in Hnd. apply NoDup_cons in Hnd as [Hk' Hnd]. simpl in Hk'.
  rewrite elem_of_cons, <-(IH v Hnd).
  destruct (last_member member body k) as [v''|] eqn:Hlast.
  - split; [by right|]. intros [[= -> ->]|?]; [|done].
    destruct Hk'. apply (list_elem_of_fmap_2 fst _ (k', v'')).
    by apply (IH v'' Hnd).
  - destruct (decide (k' = k)) as [->|]; split; try done.
    + intros [= ->]. by left.
    + by intros [[= ->]|?].
    + by intros [[= -> ->]|?].
Qed.

Lemma last_member_Permutation member body body' k :
  body ≡ₚ body' →
  NoDup (omap member body).*1 →
  last_member member body' k = last_member member body k.
Proof.
  intros Hperm Hnd.
  assert (NoDup (omap member body').*1) as Hnd' by (by rewrite <-Hperm).
  apply option_eq. intros v.
  by rewrite !last_member_NoDup, Hperm by done.
Qed.

(** The text of a class does not depend on the order of the member
    statements, as long as no name is assigned twice and none defined as a
    function twice. *)
Lemma class_source_order `{DictItems} fuel name body body' :
  body ≡ₚ body' →
  forallb simple_member body = true →
  NoDup (omap assign_member body).*1 →
  NoDup (omap function_member body).*1 →
  translate (S fuel) (ClassDef name body') no_kwargs
  = translate (S fuel) (ClassDef name body) no_kwargs.
Proof.
  intros Hperm Hok Hnda Hndf.
  assert (forallb simple_member body' = true) as Hok'.
  { apply Is_true_true, forallb_True. rewrite <-Hperm.
    by apply forallb_True, Is_true_true. }
  destruct (class_members_lookup body Hok) as (functions & assigns & Hcm & Hf & Ha).
  destruct (class_members_lookup body' Hok') as (functions' & assigns' & Hcm' & Hf' & Ha').
  assert (functions' = functions) as ->.
  { apply map_eq. intros k. rewrite Hf, Hf'. by apply last_member_Permutation. }
  assert (assigns' = assigns) as ->.
  { apply map_eq. intros k. rewrite Ha, Ha'. by apply last_member_Permutation. }
  rewrite !translate_S. simpl. unfold translate_class. by rewrite Hcm, Hcm'.
Qed.

Lemma StronglySorted_filter_keys {A} (R : relation string)
    (P : string * A → Prop) `{∀ x, Decision (P x)} (l : list (string * A)) :
  StronglySorted R l.*1 → StronglySorted R (filter P l).*1.
Proof.
  induction l as [|[k f] l IH]; [done|].
  rewrite fmap_cons. intros [Hl Hk]%StronglySorted_inv. rewrite filter_cons.
  destruct (decide _); [|by apply IH]. rewrite fmap_cons. constructor; [by apply IH|].
  apply Forall_fmap, Forall_forall. intros [k2 f2] [_ Hin]%list_elem_of_filter.
  rewrite Forall_fmap, Forall_forall in Hk. apply (Hk _ Hin).
Qed.

(** C1, as the code has it.  A class whose assignments are all simple is
    emitted as [var <name> = <constructor>;\n<name>.prototype = { <entries> }];
    the constructor is the empty function when there is no member function
    [__init__]; the entries are one per assigned name, for the last
    assignment to it, followed by one per function name other than
    [__init__], for its last definition, each group in strictly increasing
    order of the names. *)
Theorem C1_class_layout `{DictItems} fuel name body :
  forallb simple_member body = true →
  ∃ amembers fmembers : list (string * node),
    (∀ k v, (k, v) ∈ amembers ↔ last_assign body k = Some v) ∧
    (∀ k f, (k, f) ∈ fmembers ↔ last_function body k = Some f ∧ k ≠ "__init__") ∧
    StronglySorted (strict String.le) amembers.*1 ∧
    StronglySorted (strict String.le) fmembers.*1 ∧
    (last_function body "__init__" = None →
     constructor (translate fuel) body = Ok "function () {}") ∧
    ∀ init_def adefs fdefs,
      constructor (translate fuel) body = Ok init_def →
      Forall2 (λ kv s, assign_entry (translate fuel) kv = Ok s) amembers adefs →
      Forall2 (λ kv s, method_entry (translate fuel) kv = Ok s) fmembers fdefs →
      translate (S fuel) (ClassDef name body) no_kwargs
      = Ok (class_text name init_def (adefs ++ fdefs)).
Proof.
  intros Hok.
  destruct (class_members_lookup body Hok) as (functions & assigns & Hcm & Hf' & Ha').
  exists (sorted (items assigns)),
         (filter (λ kv, kv.1 ≠ "__init__") (sorted (items functions))).
  split; [|split; [|split; [|split; [|split]]]].
  - intros k v. by rewrite elem_of_sorted, elem_of_items, Ha'.
  - intros k f. by rewrite list_elem_of_filter, elem_of_sorted, elem_of_items, Hf', (comm and).
  - apply sorted_items_keys.
  - apply StronglySorted_filter_keys, sorted_items_keys.
  - unfold constructor. by intros ->.
  - intros init_def adefs fdefs Hinit Hadefs%for_each_Ok Hfdefs%for_each_Ok.
    rewrite translate_S. simpl. unfold translate_class. rewrite Hcm. simpl.
    unfold constructor in Hinit. rewrite <-Hf' in Hinit. rewrite Hinit. simpl.
    unfold assign_entry in Hadefs. rewrite Hadefs. simpl.
    unfold method_entry in Hfdefs. rewrite Hfdefs. by simpl.
Qed.

Lemma C1_class_layout_witness :
  ∃ amembers fmembers : list (string * node),
    (∀ k v, (k, v) ∈ amembers ↔ last_assign ex_class_body k = Some v) ∧
    (∀ k f, (k, f) ∈ fmembers ↔ last_function ex_class_body k = Some f ∧ k ≠ "__init__") ∧
    StronglySorted (strict String.le) amembers.*1 ∧
    StronglySorted (strict String.le) fmembers.*1 ∧
    (last_function ex_class_body "__init__" = None →
     constructor (translate 3) ex_class_body = Ok "function () {}") ∧
    ∀ init_def adefs fdefs,
      constructor (translate 3) ex_class_body = Ok init_def →
      Forall2 (λ kv s, assign_entry (translate 3) kv = Ok s) amembers adefs →
      Forall2 (λ kv s, method_entry (translate 3) kv = Ok s) fmembers fdefs →
      translate 4 ex_class no_kwargs = Ok (class_text "A" init_def (adefs ++ fdefs)).
Proof. apply (C1_class_layout 3 "A" ex_class_body). reflexivity. Defined.

(** The class of the specification's example, emitted: [a] and [z] before
    [b], and an empty constructor. *)
Example ex_class_text :
  translate 4 ex_class no_kwargs
  = Ok (class_text "A" "function () {}"
          ["'a': 1"; "'z': 2"; "'b': function (x) { return this.x; }"]).
Proof. vm_compute. reflexivity. Qed.

(** C1 as stated fails on a class that assigns to one name twice: there are
    two simple assignments in the body, and the table has one entry, for the
    second of them. *)
Lemma C1_class_layout_counterexample :
  translate 2 ex_class_twice no_kwargs
    = Ok (class_text "A" "function () {}" ["'a': 2"]) ∧
  ¬ claimed_class_text (translate 1) "A" ex_class_twice_body
      (class_text "A" "function () {}" ["'a': 2"]).
Proof.
  split; [vm_compute; reflexivity|].
  intros (amembers & fmembers & adefs & fdefs & Ha & Hf & _ & _ & Hadefs & Hfdefs & Htext).
  simpl in Ha, Hf. apply Permutation_nil_r in Hf as ->.
  apply Forall2_nil_inv_l in Hfdefs as ->.
  symmetry in Ha. apply Permutation_length_2_inv in Ha as [-> | ->];
    repeat match goal with
           | H : Forall2 _ (_ :: _) _ |- _ =>
               apply Forall2_cons_inv_l in H as (? & ? & ? & H & ->)
           | H : Forall2 _ [] _ |- _ => apply Forall2_nil_inv_l in H as ->
           | H : assign_entry _ _ = Ok _ |- _ => vm_compute in H; injection H as <-
           end;
    vm_compute in Htext; discriminate.
Qed.

(** *** C2: the power operator *)

(** C2, as the code has it: a binary operation with the power operator whose
    operands translate to [A] and [B] is emitted as [Math.pow(A, B)], the
    left operand first. *)
Theorem C2_pow_emits_Math_pow `{DictItems} fuel lhs rhs A B :
  translate fuel lhs no_kwargs = Ok A →
  translate fuel rhs no_kwargs = Ok B →
  translate (S fuel) (BinOp lhs Pow rhs) no_kwargs
  = Ok ("Math.pow(" +:+ A +:+ ", " +:+ B +:+ ")").
Proof.
  intros Hl Hr. rewrite translate_S. simpl. unfold translate_bin_op. simpl.
  by rewrite Hl, Hr.
Qed.

Lemma C2_pow_witness :
  translate 1 (Num 2) no_kwargs = Ok "2" ∧
  translate 1 (Num 3) no_kwargs = Ok "3" ∧
  translate 2 ex_pow no_kwargs = Ok ("Math.pow(" +:+ "2" +:+ ", " +:+ "3" +:+ ")").
Proof.
  split; [reflexivity|]. split; [reflexivity|].
  apply (C2_pow_emits_Math_pow 1 (Num 2) (Num 3) "2" "3"); reflexivity.
Defined.

(** C2 as stated fails on [2 ** 3]: the operands translate to [2] and [3],
    and the text emitted for the node is not [pow(2, 3)]. *)
Lemma C2_pow_counterexample :
  translate 1 (Num 2) no_kwargs = Ok "2" ∧
  translate 1 (Num 3) no_kwargs = Ok "3" ∧
  translate 2 ex_pow no_kwargs ≠ Ok ("pow(" +:+ "2" +:+ ", " +:+ "3" +:+ ")").
Proof. split; [reflexivity|]. split; [reflexivity|]. vm_compute. discriminate. Qed.

(** *** C3: the separator between statements *)

(** The body of a module goes through [translate_body] like any other body,
    and the separator that [translate_module] hands over is dropped there. *)
Lemma translate_module_as_body `{DictItems} fuel body :
  translate (S fuel) (Module body) no_kwargs = translate_body (translate fuel) body nl.
Proof. reflexivity. Qed.

(** C3 at a module of the two statements [a] and [b]: the code joins them
    with one newline, where C3 has a blank line between them. *)
Theorem C3_module_single_newline :
  translate 3 ex_module no_kwargs = Ok ("a;" +:+ nl +:+ "b;") ∧
  translate 3 ex_module no_kwargs ≠ Ok ("a;" +:+ nl +:+ nl +:+ "b;").
Proof. split; [reflexivity|]. vm_compute. discriminate. Qed.

(** *** C4: numeric literals *)




(** *** C5 and C6: tuple assignment *)

(** C5: a tuple pattern assigned a tuple literal of the same arity gives the
    pairwise assignments, left to right, joined by [;\n]. *)
Theorem C5_tuple_assign `{DictItems} fuel telts velts ts vs :
  length telts = length velts →
  Forall2 (λ t s, translate fuel t no_kwargs = Ok s) telts ts →
  Forall2 (λ v s, translate fuel v no_kwargs = Ok s) velts vs →
  translate (S fuel) (Assign [Tuple telts] (Tuple velts)) no_kwargs
  = Ok (join (";" +:+ nl) (zip_with (λ t v, t +:+ " = " +:+ v) ts vs)).
Proof.
  intros Hlen Ht Hv. rewrite translate_S. simpl.
  unfold translate_assign. simpl. rewrite decide_False by (by intros []).
  rewrite (zip_assignments _ _ _ _ _ Ht Hv). simpl. by rewrite app_nil_r.
Qed.

Lemma C5_tuple_assign_witness :
  translate 3 ex_tuple_assign no_kwargs = Ok ("a = 1;" +:+ nl +:+ "b = 2").
Proof.
  apply (C5_tuple_assign 2 [Name "a"; Name "b"] [Num 1; Num 2] ["a"; "b"] ["1"; "2"]).
  - reflexivity.
  - constructor; [reflexivity|]. constructor; [reflexivity|]. constructor.
  - constructor; [reflexivity|]. constructor; [reflexivity|]. constructor.
Defined.

Lemma assign_target_mismatch tr telts value :
  tuple_mismatch telts value →
  assign_target tr value (Tuple telts) = Raise (mismatch_error value).
Proof.
  unfold assign_target, tuple_mismatch, mismatch_error.
  destruct value; try done. intros Hlen. by rewrite decide_True.
Qed.

(** C6, as the code has it: an assignment one of whose targets is a tuple
    pattern that the value does not fit never gives text, it raises (and not
    for want of budget, when the budget covers the depth of the tree); the
    exception is a [CompileError] when the rounds of the targets before that
    pattern raise nothing, so whenever the pattern is the first or the only
    target; otherwise it is the exception of the first earlier target whose
    round raises. *)
Theorem C6_tuple_mismatch `{DictItems} fuel pre telts post value :
  tuple_mismatch telts value →
  let tree := Assign (pre ++ Tuple telts :: post) value in
  (∃ e, translate (S fuel) tree no_kwargs = Raise e ∧
        (height tree ≤ S fuel → e ≠ RecursionLimit)) ∧
  ((∃ stmts, for_each (assign_target (translate fuel) value) pre = Ok stmts) →
   translate (S fuel) tree no_kwargs = Raise (mismatch_error value)) ∧
  (∀ pre1 target pre2 stmts e,
     pre = pre1 ++ target :: pre2 →
     for_each (assign_target (translate fuel) value) pre1 = Ok stmts →
     assign_target (translate fuel) value target = Raise e →
     translate (S fuel) tree no_kwargs = Raise e).
Proof.
  intros Hmis%(assign_target_mismatch (translate fuel)) tree. split; [|split].
  - assert (∃ e, translate (S fuel) tree no_kwargs = Raise e) as [e He].
    { rewrite translate_S. simpl. unfold translate_assign.
      destruct (for_each_not_Ok _ pre _ post _ Hmis) as [e ->]. by exists e. }
    exists e. split; [done|]. intros Hh ->.
    by apply (translate_budget (S fuel) tree no_kwargs Hh).
  - intros [stmts Hpre]. rewrite translate_S. simpl. unfold translate_assign.
    by rewrite (for_each_app_Raise _ _ _ _ _ _ Hpre Hmis).
  - intros pre1 target pre2 stmts e -> Hpre1 Htarget. unfold tree.
    rewrite translate_S. simpl. unfold translate_assign.
    rewrite <-app_assoc, <-app_comm_cons.
    by rewrite (for_each_app_Raise _ _ _ _ _ _ Hpre1 Htarget).
Qed.

Lemma C6_tuple_mismatch_witness :
  translate 1 (Assign [Tuple [Name "a"; Name "b"]] (Tuple [Num 1; Num 2; Num 3])) no_kwargs
  = Raise (CompileError "Assigning one tuple to another of different length.").
Proof.
  refine (proj1 (proj2 (C6_tuple_mismatch 0 [] [Name "a"; Name "b"] []
                          (Tuple [Num 1; Num 2; Num 3]) _)) _).
  - simpl. lia.
  - exists []. reflexivity.
Defined.

(** C6 as stated fails when an earlier target of the same assignment raises
    first: in [x = (a, b) = 1 < y < 2] and in
    [(1 < y < 2).z = (a, b) = (1, 2, 3)] the tuple pattern does not fit the
    value, and the exception is the failed assertion of the comparison, not a
    [CompileError]. *)
Lemma C6_tuple_mismatch_counterexample :
  (translate 4 ex_assign_chain no_kwargs
     = Raise (AssertionError "Cannot have multiple comparison") ∧
   raises_CompileError (translate 4 ex_assign_chain no_kwargs) = false) ∧
  (translate 4 ex_assign_arity no_kwargs
     = Raise (AssertionError "Cannot have multiple comparison") ∧
   raises_CompileError (translate 4 ex_assign_arity no_kwargs) = false).
Proof. repeat split; reflexivity. Qed.

(** *** C7: chained comparisons *)

(** C7: a comparison with more than one operator or more than one
    comparator fails the assertion; no text comes back. *)
Theorem C7_chained_compare `{DictItems} fuel lhs ops comparators :
  1 < length ops ∨ 1 < length comparators →
  translate (S fuel) (Compare lhs ops comparators) no_kwargs
  = Raise (AssertionError "Cannot have multiple comparison").
Proof.
  intros Hlen. rewrite translate_S. simpl. unfold translate_compare, assert.
  destruct (bool_decide_reflect (length ops = 1)) as [Hops|]; [|done].
  destruct (bool_decide_reflect (length comparators = 1)) as [Hcs|]; [|done].
  lia.
Qed.

Lemma C7_chained_compare_witness :
  translate 1 ex_chain no_kwargs = Raise (AssertionError "Cannot have multiple comparison").
Proof. apply (C7_chained_compare 0 (Num 1) [Lt; Lt] [Name "x"; Num 2]). left. simpl. lia. Defined.

(** *** C8: instance methods *)

(** C8, as the code has it: in instance-method mode the parameters after the
    first are emitted in order and the first is left out, whatever it is
    called; the text of the body is the text of the body with [this] written
    for every reference to [self], and a name that is translated is emitted
    as [this] exactly when it is [self]. *)
Theorem C8_instance_method `{DictItems} fuel name first ids body body_def :
  translate_body (translate fuel) body nl = Ok body_def →
  translate (S fuel) (FunctionDef name (first :: (Name <$> ids)) body) (Some true)
  = Ok ("function (" +:+ join ", " ids +:+ ") { " +:+ body_def +:+ " }") ∧
  translate_body (translate fuel) (this_for_self <$> body) nl = Ok body_def ∧
  ∀ id, translate (S fuel) (Name id) no_kwargs
        = Ok (if decide (id = "self") then "this" else id).
Proof.
  intros Hbody. split; [|split].
  - rewrite translate_S. unfold dispatch, translate_function.
    change (drop 1 (first :: (Name <$> ids))) with (Name <$> ids).
    assert (for_each arg_id (Name <$> ids) = Ok ids) as ->.
    { induction ids as [|i ids IH]; [done|].
      rewrite fmap_cons. simpl. by rewrite IH. }
    simpl. by rewrite Hbody.
  - rewrite translate_body_this_for_self; [done|].
    intros n kw. apply translate_this_for_self.
  - intros id. rewrite translate_S. simpl. unfold translate_name. by destruct (decide _).
Qed.

Lemma C8_instance_method_witness :
  translate 5 ex_method_refs (Some true) = Ok "function (k) { return f(this, this.k); }" ∧
  translate_body (translate 4)
    [Return (Call (Name "f") [Name "this"; Attribute (Name "this") "k"])] nl
  = Ok "return f(this, this.k);".
Proof.
  destruct (C8_instance_method 4 "get" (Name "self") ["k"]
              [Return (Call (Name "f") [Name "self"; Attribute (Name "self") "k"])]
              "return f(this, this.k);") as (Htext & Hbody & _); [reflexivity|].
  split; [exact Htext|exact Hbody].
Defined.

(** C8 as stated fails when the first parameter is not called [self]: the
    reference to the dropped parameter [me] is emitted as it stands. *)
Lemma C8_instance_method_counterexample :
  translate 4 ex_method_me (Some true) = Ok "function () { return me; }" ∧
  translate 4 ex_method_me (Some true) ≠ Ok "function () { return this; }".
Proof. split; [reflexivity|]. vm_compute. discriminate. Qed.

(** *** C9: determinism *)

(** C9: two calls on the same tree give the same result, whichever order
    the dictionaries enumerate their entries in and whatever budget each call
    has, as long as neither runs out of it. *)
Theorem C9_deterministic (I1 I2 : DictItems) fuel1 fuel2 tree kw r1 r2 :
  @translate I1 fuel1 tree kw = r1 →
  @translate I2 fuel2 tree kw = r2 →
  r1 ≠ Raise RecursionLimit →
  r2 ≠ Raise RecursionLimit →
  r1 = r2.
Proof.
  intros <- <- H1 H2. destruct (Nat.le_ge_cases fuel1 fuel2) as [Hle|Hle].
  - destruct (translate_below I1 I2 fuel1 (fuel2 - fuel1) tree kw) as [?|Heq]; [done|].
    by replace (fuel1 + (fuel2 - fuel1)) with fuel2 in Heq by lia.
  - destruct (translate_below I2 I1 fuel2 (fuel1 - fuel2) tree kw) as [?|Heq]; [done|].
    by replace (fuel2 + (fuel1 - fuel2)) with fuel1 in Heq by lia.
Qed.

Lemma C9_deterministic_witness :
  @translate map_order_items 4 ex_class no_kwargs
  = @translate reverse_order_items 7 ex_class no_kwargs.
Proof.
  apply (C9_deterministic map_order_items reverse_order_items 4 7 ex_class no_kwargs);
    [reflexivity | reflexivity | vm_compute; discriminate | vm_compute; discriminate].
Defined.

(** *** C10: boolean operators *)

(** C10: a boolean operation is built from its first two operands; further
    operands are not looked at. *)
Theorem C10_bool_op_first_two `{DictItems} fuel op v0 v1 rest A O B :
  translate fuel v0 no_kwargs = Ok A →
  translate fuel op no_kwargs = Ok O →
  translate fuel v1 no_kwargs = Ok B →
  translate (S fuel) (BoolOp op (v0 :: v1 :: rest)) no_kwargs
  = Ok ("(" +:+ A +:+ " " +:+ O +:+ " " +:+ B +:+ ")").
Proof.
  intros H0 Hop H1. rewrite translate_S. simpl. unfold translate_bool_op. simpl.
  by rewrite H0, Hop, H1.
Qed.

Lemma C10_bool_op_witness :
  translate 2 ex_bool_op no_kwargs = Ok ("(" +:+ "a" +:+ " " +:+ "&&" +:+ " " +:+ "b" +:+ ")").
Proof.
  apply (C10_bool_op_first_two 1 And (Name "a") (Name "b") [Other "Str"; Name "c"]);
    reflexivity.
Defined.

(** ** Further properties of the handlers *)

(** *** Function declarations *)

Lemma for_each_arg_id_names ids : for_each arg_id (Name <$> ids) = Ok ids.
Proof.
  induction ids as [|i ids IH]; [done|].
  rewrite fmap_cons. simpl. by rewrite IH.
Qed.

Lemma for_each_arg_id_Raise args :
  existsb (λ a, negb (is_Name a)) args = true →
  for_each arg_id args = Raise AttributeError.
Proof.
  induction args as [|a args IH]; [done|]. simpl.
  destruct a; simpl; try done. intros Hrest. by rewrite IH.
Qed.

(** X1: without instance-method mode (no keyword, or the keyword set to
    false) a function declaration is emitted as
    [var <name> = function (<all parameters, in order>) { <body> }]. *)
Theorem X1_free_function `{DictItems} fuel name ids body body_def :
  translate_body (translate fuel) body nl = Ok body_def →
  translate (S fuel) (FunctionDef name (Name <$> ids) body) no_kwargs
  = Ok ("var " +:+ name +:+ " = function (" +:+ join ", " ids +:+ ") { " +:+
        body_def +:+ " }") ∧
  translate (S fuel) (FunctionDef name (Name <$> ids) body) (Some false)
  = translate (S fuel) (FunctionDef name (Name <$> ids) body) no_kwargs.
Proof.
  intros Hbody. split; [|reflexivity].
  rewrite translate_S. unfold dispatch, translate_function. simpl.
  rewrite for_each_arg_id_names. simpl. by rewrite Hbody.
Qed.

Lemma X1_free_function_witness :
  translate 4 ex_add no_kwargs = Ok "var add = function (x, y) { return (x + y); }".
Proof.
  refine (proj1 (X1_free_function 3 "add" ["x"; "y"]
                   [Return (BinOp (Name "x") Add (Name "y"))] "return (x + y);" _)).
  reflexivity.
Defined.

(** X2: a formal parameter that is not a plain name makes the declaration
    raise [AttributeError] before the body is looked at; in instance-method
    mode the first parameter is never read, so only the later ones count. *)
Theorem X2_parameter_not_a_name `{DictItems} fuel name args body (instance_method : bool) :
  existsb (λ a, negb (is_Name a)) (if instance_method then drop 1 args else args) = true →
  translate (S fuel) (FunctionDef name args body) (Some instance_method)
  = Raise AttributeError.
Proof.
  intros Hargs%for_each_arg_id_Raise. rewrite translate_S.
  unfold dispatch, translate_function. simpl.
  destruct instance_method; by rewrite Hargs.
Qed.

Lemma X2_parameter_not_a_name_witness :
  translate 4 ex_tuple_parameter (Some false) = Raise AttributeError.
Proof.
  apply (X2_parameter_not_a_name 3 "f" [Tuple [Name "a"; Name "b"]; Name "c"]
           [Return (Name "c")] false).
  reflexivity.
Defined.

(** X3: in instance-method mode a declaration without any parameter is
    translated without error, to the same text as with one parameter. *)
Theorem X3_method_without_parameters `{DictItems} fuel name first body :
  translate fuel (FunctionDef name [] body) (Some true)
  = translate fuel (FunctionDef name [first] body) (Some true).
Proof. by destruct fuel. Qed.

(** *** Bodies *)

Lemma statement_Ok tr n t :
  statement tr n = Ok t ↔
  ∃ x, tr n no_kwargs = Ok x ∧ t = if is_If n then x else x +:+ ";".
Proof.
  unfold statement. destruct (is_If n).
  - split; [by exists t|]. by intros (x & ? & ->).
  - rewrite bind_Ok. split.
    + intros (x & Hx & [= <-]). by exists x.
    + intros (x & Hx & ->). by exists x.
Qed.

Lemma translate_body_statements tr body sep :
  translate_body tr body sep = do stmts <- for_each (statement tr) body; Ok (join nl stmts).
Proof. reflexivity. Qed.

(** X4: a body is translated all or nothing.  It gives text exactly when
    every statement does; the text is then the statements joined by one
    newline, each followed by a semicolon unless it is an [if] statement. *)
Theorem X4_body_text `{DictItems} fuel body text :
  translate (S fuel) (Module body) no_kwargs = Ok text ↔
  ∃ stmts,
    Forall2 (λ n t, ∃ x, translate fuel n no_kwargs = Ok x ∧
                         t = if is_If n then x else x +:+ ";") body stmts ∧
    text = join nl stmts.
Proof.
  rewrite translate_S. simpl. unfold translate_module.
  rewrite translate_body_statements, bind_Ok. split.
  - intros (stmts & Hstmts%for_each_Ok & [= <-]). exists stmts. split; [|done].
    eapply Forall2_impl; [done|]. intros n t. apply statement_Ok.
  - intros (stmts & Hstmts & ->). exists stmts. split; [|done].
    apply for_each_Ok. eapply Forall2_impl; [done|]. intros n t. apply statement_Ok.
Qed.

(** X5: the statements of a body are translated in order and the first one
    that raises ends the translation with its exception, whatever follows. *)
Theorem X5_first_failing_statement `{DictItems} fuel pre x post e :
  Forall (λ n, ∃ t, translate fuel n no_kwargs = Ok t) pre →
  translate fuel x no_kwargs = Raise e →
  translate (S fuel) (Module (pre ++ x :: post)) no_kwargs = Raise e.
Proof.
  intros Hpre Hx. rewrite translate_S. simpl. unfold translate_module.
  rewrite translate_body_statements.
  assert (∃ stmts, for_each (statement (translate fuel)) pre = Ok stmts) as [stmts Hstmts].
  { induction Hpre as [|n pre [t Hn] _ [stmts IH]]; [by exists []|].
    simpl. unfold statement at 1. rewrite Hn, IH.
    destruct (is_If n); simpl; eauto. }
  assert (statement (translate fuel) x = Raise e) as Hx'.
  { unfold statement. rewrite Hx. by destruct (is_If x). }
  by rewrite (for_each_app_Raise _ _ _ _ _ _ Hstmts Hx').
Qed.

Lemma X5_first_failing_statement_witness :
  translate 4 (Module ex_failing_statements) no_kwargs = Raise (KeyError "Str").
Proof.
  apply (X5_first_failing_statement 3 ex_statements (Expr (Other "Str")) [Expr ex_chain]).
  - constructor; [eexists; reflexivity|]. constructor; [eexists; reflexivity|].
    constructor.
  - reflexivity.
Defined.

(** *** Conditional statements *)

Lemma translate_if_else `{DictItems} fuel test body orelse test_def body_def orelse_def :
  translate fuel test no_kwargs = Ok test_def →
  translate_body (translate fuel) body nl = Ok body_def →
  orelse ≠ [] →
  translate_body (translate fuel) orelse nl = Ok orelse_def →
  translate (S fuel) (If test body orelse) no_kwargs
  = Ok (("if (" +:+ test_def +:+ ") { " +:+ body_def +:+ " }") +:+ nl +:+
        "else { " +:+ orelse_def +:+ " }").
Proof.
  intros Htest Hbody Hne Horelse. rewrite translate_S. simpl. unfold translate_if.
  rewrite Htest. simpl. rewrite Hbody. simpl.
  destruct orelse as [|o orelse]; [done|]. by rewrite Horelse.
Qed.

(** X6: a conditional statement is emitted as [if (<test>) { <body> }]; the
    line [else { <orelse> }] follows exactly when there is an else branch. *)
Theorem X6_if_else `{DictItems} fuel test body orelse test_def body_def :
  translate fuel test no_kwargs = Ok test_def →
  translate_body (translate fuel) body nl = Ok body_def →
  (orelse = [] →
   translate (S fuel) (If test body orelse) no_kwargs
   = Ok ("if (" +:+ test_def +:+ ") { " +:+ body_def +:+ " }")) ∧
  (∀ orelse_def,
     orelse ≠ [] →
     translate_body (translate fuel) orelse nl = Ok orelse_def →
     translate (S fuel) (If test body orelse) no_kwargs
     = Ok (("if (" +:+ test_def +:+ ") { " +:+ body_def +:+ " }") +:+ nl +:+
           "else { " +:+ orelse_def +:+ " }")).
Proof.
  intros Htest Hbody. split.
  - intros ->. rewrite translate_S. simpl. unfold translate_if.
    by rewrite Htest, Hbody.
  - intros orelse_def Hne Horelse. by apply translate_if_else.
Qed.

Lemma X6_if_else_witness :
  translate 4 (If (Name "a") [Expr (Name "x")] []) no_kwargs = Ok "if (a) { x; }".
Proof.
  refine (proj1 (X6_if_else 3 (Name "a") [Expr (Name "x")] [] "a" "x;" _ _) _);
    reflexivity.
Defined.

(** X7: an [elif] arrives as an [if] statement that is the whole else
    branch; it is emitted inside the braces of the [else] as it stands,
    without a semicolon, so a chain of [elif]s nests. *)
Theorem X7_elif_nests `{DictItems} fuel test body test2 body2 orelse2 test_def body_def inner :
  translate fuel test no_kwargs = Ok test_def →
  translate_body (translate fuel) body nl = Ok body_def →
  translate fuel (If test2 body2 orelse2) no_kwargs = Ok inner →
  translate (S fuel) (If test body [If test2 body2 orelse2]) no_kwargs
  = Ok (("if (" +:+ test_def +:+ ") { " +:+ body_def +:+ " }") +:+ nl +:+
        "else { " +:+ inner +:+ " }").
Proof.
  intros Htest Hbody Hinner.
  apply translate_if_else; [done..|].
  unfold translate_body. simpl. by rewrite Hinner.
Qed.

Lemma X7_elif_nests_witness :
  translate 5 ex_elif no_kwargs
  = Ok ("if (a) { x; }" +:+ nl +:+ "else { " +:+
        ("if (b) { y; }" +:+ nl +:+ "else { z; }") +:+ " }").
Proof.
  apply (X7_elif_nests 4 (Name "a") [Expr (Name "x")] (Name "b") [Expr (Name "y")]
           [Expr (Name "z")] "a" "x;"); reflexivity.
Defined.

(** *** Calls *)

(** X8: a call gives text exactly when all arguments and the callee do; the
    text is the callee followed by the arguments, in order, joined by a comma
    and a space, between parentheses. *)
Theorem X8_call_text `{DictItems} fuel func args text :
  translate (S fuel) (Call func args) no_kwargs = Ok text ↔
  ∃ func_def args_def,
    translate fuel func no_kwargs = Ok func_def ∧
    Forall2 (λ a s, translate fuel a no_kwargs = Ok s) args args_def ∧
    text = func_def +:+ "(" +:+ join ", " args_def +:+ ")".
Proof.
  rewrite translate_S. simpl. unfold translate_call. rewrite bind_Ok. split.
  - intros (args_def & Hargs%for_each_Ok & (func_def & Hfunc & [= <-])%bind_Ok).
    by exists func_def, args_def.
  - intros (func_def & args_def & Hfunc & Hargs%for_each_Ok & ->).
    exists args_def. split; [done|]. by rewrite Hfunc.
Qed.

(** X9: the arguments of a call are translated before the callee, from left
    to right: the first argument that raises decides the exception, whatever
    the callee and the later arguments are. *)
Theorem X9_call_arguments_first `{DictItems} fuel func pre x post e :
  Forall (λ a, ∃ s, translate fuel a no_kwargs = Ok s) pre →
  translate fuel x no_kwargs = Raise e →
  translate (S fuel) (Call func (pre ++ x :: post)) no_kwargs = Raise e.
Proof.
  intros Hpre Hx. rewrite translate_S. simpl. unfold translate_call.
  assert (∃ ss, for_each (λ n, translate fuel n no_kwargs) pre = Ok ss) as [ss Hss].
  { induction Hpre as [|a pre [s Ha] _ [ss IH]]; [by exists []|].
    simpl. rewrite Ha, IH. simpl. eauto. }
  by rewrite (for_each_app_Raise _ _ _ _ _ _ Hss Hx).
Qed.

Lemma X9_call_arguments_first_witness :
  translate 3 ex_call_failing no_kwargs
  = Raise (AssertionError "Cannot have multiple comparison").
Proof.
  apply (X9_call_arguments_first 2 (Other "Subscript") [Num 1] ex_chain [Other "Str"]).
  - constructor; [eexists; reflexivity|]. constructor.
  - reflexivity.
Defined.

(** *** Operators *)

(** X10: a binary operation with any operator other than the power
    operator is emitted between parentheses as [(<left> <op> <right>)]. *)
Theorem X10_bin_op_parenthesised `{DictItems} fuel lhs op rhs A O B :
  is_Pow op = false →
  translate fuel lhs no_kwargs = Ok A →
  translate fuel op no_kwargs = Ok O →
  translate fuel rhs no_kwargs = Ok B →
  translate (S fuel) (BinOp lhs op rhs) no_kwargs
  = Ok ("(" +:+ A +:+ " " +:+ O +:+ " " +:+ B +:+ ")").
Proof.
  intros Hop Hl Ho Hr. rewrite translate_S. simpl. unfold translate_bin_op.
  by rewrite Hop, Hl, Ho, Hr.
Qed.

Lemma X10_bin_op_parenthesised_witness :
  translate 2 (BinOp (Name "x") LShift (Num 3)) no_kwargs = Ok "(x << 3)".
Proof.
  apply (X10_bin_op_parenthesised 1 (Name "x") LShift (Num 3) "x" "<<" "3"); reflexivity.
Defined.

(** X11: true division and floor division are not told apart: the two
    operations on the same operands have the same translation. *)
Theorem X11_division_alike `{DictItems} fuel lhs rhs kw :
  translate fuel (BinOp lhs Div rhs) kw = translate fuel (BinOp lhs FloorDiv rhs) kw.
Proof.
  destruct fuel as [|fuel]; [done|]. rewrite !translate_S. simpl. f_equal.
  unfold translate_bin_op. simpl. by destruct fuel.
Qed.

(** X12: a comparison gives text exactly when it has one operator and one
    comparator and they and the left operand give text; the text is then
    [(<left> <op> <comparator>)]. *)
Theorem X12_compare_text `{DictItems} fuel lhs ops comparators text :
  translate (S fuel) (Compare lhs ops comparators) no_kwargs = Ok text ↔
  ∃ op comparator A O B,
    ops = [op] ∧ comparators = [comparator] ∧
    translate fuel lhs no_kwargs = Ok A ∧
    translate fuel op no_kwargs = Ok O ∧
    translate fuel comparator no_kwargs = Ok B ∧
    text = "(" +:+ A +:+ " " +:+ O +:+ " " +:+ B +:+ ")".
Proof.
  rewrite translate_S. simpl. unfold translate_compare, assert. split.
  - destruct (bool_decide_reflect (length ops = 1)) as [Hops|]; [|done].
    destruct (bool_decide_reflect (length comparators = 1)) as [Hcs|]; [|done].
    destruct ops as [|op [|]]; try done. destruct comparators as [|c [|]]; try done.
    simpl. intros (A & HA & (O & HO & (B & HB & [= <-])%bind_Ok)%bind_Ok)%bind_Ok.
    by exists op, c, A, O, B.
  - intros (op & c & A & O & B & -> & -> & HA & HO & HB & ->). simpl.
    by rewrite HA, HO, HB.
Qed.

(** X13: a boolean operation with fewer than two operands never gives text:
    it raises, and the exception is [IndexError] when there is no operand, or
    one operand that is translated together with the operator. *)
Theorem X13_bool_op_too_short `{DictItems} fuel op values :
  length values < 2 →
  ∃ e, translate (S fuel) (BoolOp op values) no_kwargs = Raise e ∧
       (values = [] → e = IndexError) ∧
       (∀ v0 A O, values = [v0] → translate fuel v0 no_kwargs = Ok A →
                  translate fuel op no_kwargs = Ok O → e = IndexError) ∧
       (height (BoolOp op values) ≤ S fuel → e ≠ RecursionLimit).
Proof.
  intros Hlen.
  assert (∃ e, translate (S fuel) (BoolOp op values) no_kwargs = Raise e ∧
               (values = [] → e = IndexError) ∧
               (∀ v0 A O, values = [v0] → translate fuel v0 no_kwargs = Ok A →
                          translate fuel op no_kwargs = Ok O → e = IndexError))
    as (e & He & Hnil & Hone).
  { rewrite translate_S. simpl. unfold translate_bool_op.
    destruct values as [|v0 [|v1 values]]; [by exists IndexError| |simpl in Hlen; lia].
    simpl. destruct (translate fuel v0 no_kwargs) as [A|e] eqn:H0; simpl.
    2: { exists e. split; [done|]. split; [done|]. intros ??? [= <-]. by rewrite H0. }
    destruct (translate fuel op no_kwargs) as [O|e] eqn:Hop; simpl.
    2: { exists e. split; [done|]. split; [done|]. by intros ??? _ _ ?. }
    by exists IndexError. }
  exists e. split; [done|]. split; [done|]. split; [done|]. intros Hh ->.
  by apply (translate_budget (S fuel) (BoolOp op values) no_kwargs Hh).
Qed.

Lemma X13_bool_op_too_short_witness :
  translate 2 (BoolOp And [Name "a"]) no_kwargs = Raise IndexError.
Proof.
  destruct (X13_bool_op_too_short 1 And [Name "a"]) as (e & He & _ & Hone & _);
    [simpl; lia|].
  by rewrite He, (Hone (Name "a") "a" "&&").
Defined.

(** *** Keywords and the depth of the calls *)

(** X14: only a function declaration takes the keyword [instance_method].
    On any other tree a call with the keyword raises [TypeError], or
    [KeyError] when the class of the tree has no handler, and nothing of the
    tree is translated. *)
Theorem X14_keyword_only_for_functions `{DictItems} fuel tree (instance_method : bool) :
  is_FunctionDef tree = false →
  translate (S fuel) tree (Some instance_method)
  = Raise (if has_handler tree then TypeError else KeyError (class_name tree)).
Proof. intros Htree. rewrite translate_S. by destruct tree. Qed.

Lemma X14_keyword_only_for_functions_witness :
  translate 1 ex_class (Some true) = Raise TypeError.
Proof. apply (X14_keyword_only_for_functions 0 ex_class true). reflexivity. Defined.

(** X15: the calls of [translate] nest no deeper than the tree: with a
    budget of the depth of the tree the call comes back, and with the result
    it has under every larger budget. *)
Theorem X15_depth_of_calls `{DictItems} fuel tree kw :
  height tree ≤ fuel →
  translate fuel tree kw ≠ Raise RecursionLimit ∧
  translate fuel tree kw = translate (height tree) tree kw.
Proof.
  intros Hfuel. split; [by apply translate_budget|].
  apply (translate_fuel_mono (height tree) fuel); [done|done|by apply translate_budget].
Qed.

Lemma X15_depth_of_calls_witness :
  translate 9 ex_class no_kwargs ≠ Raise RecursionLimit ∧
  translate 9 ex_class no_kwargs = translate (height ex_class) ex_class no_kwargs.
Proof. apply (X15_depth_of_calls 9 ex_class no_kwargs). vm_compute. lia. Defined.

(** *** Class bodies *)

Lemma class_members_assert body (functions0 assigns0 : dict) :
  forallb simple_member body = false →
  ∃ msg, msg ∈ class_assert_messages ∧
         class_members (functions0, assigns0) body = Raise (AssertionError msg).
Proof.
  revert functions0 assigns0.
  induction body as [|item body IH]; intros functions0 assigns0 Hbad; [done|].
  simpl in Hbad. cbn [class_members].
  destruct (simple_member item) eqn:Hitem.
  - destruct (class_member_spec item functions0 assigns0 Hitem)
      as (functions1 & assigns1 & -> & _). simpl. by apply IH.
  - clear IH Hbad. unfold class_assert_messages.
    destruct item; try done. simpl. unfold assert.
    destruct targets as [|target [|]]; simpl;
      [eexists; split; [|done]; set_solver| |eexists; split; [|done]; set_solver].
    destruct target; try done; (eexists; split; [|done]; set_solver).
Qed.

(** X16: a class body with an assignment that has several targets, or a
    target that is not a plain name, is refused with a failed assertion
    before any member is translated. *)
Theorem X16_class_assignment_refused `{DictItems} fuel name body :
  forallb simple_member body = false →
  ∃ msg, msg ∈ class_assert_messages ∧
         translate (S fuel) (ClassDef name body) no_kwargs = Raise (AssertionError msg).
Proof.
  intros (msg & Hmsg & Hcm)%(class_members_assert body ∅ ∅).
  exists msg. split; [done|].
  rewrite translate_S. simpl. unfold translate_class. by rewrite Hcm.
Qed.

Lemma X16_class_assignment_refused_witness :
  ∃ msg, msg ∈ class_assert_messages ∧
         translate 1 (ClassDef "A" ex_class_attribute_target) no_kwargs
         = Raise (AssertionError msg).
Proof. apply (X16_class_assignment_refused 0 "A" ex_class_attribute_target). reflexivity. Defined.

Lemma class_members_skip pre item post (fa : dict * dict) :
  is_member item = false →
  class_members fa (pre ++ item :: post) = class_members fa (pre ++ post).
Proof.
  intros Hitem. revert fa. induction pre as [|p pre IH]; intros fa.
  - simpl. destruct fa as [functions assigns]. by destruct item.
  - rewrite <-!app_comm_cons. cbn [class_members].
    destruct (class_member fa p); simpl; [apply IH|done].
Qed.

(** X17: a statement of a class body that is neither a function definition
    nor an assignment (a docstring, a nested class, any other statement) is
    passed over: the class is translated as if the statement were not
    there, and the statement itself is never translated. *)
Theorem X17_class_passes_over `{DictItems} fuel name pre item post kw :
  is_member item = false →
  translate fuel (ClassDef name (pre ++ item :: post)) kw
  = translate fuel (ClassDef name (pre ++ post)) kw.
Proof.
  intros Hitem. destruct fuel as [|fuel]; [done|]. rewrite !translate_S. simpl.
  unfold translate_class. by rewrite class_members_skip.
Qed.

Lemma X17_class_passes_over_witness :
  translate 4 (ClassDef "A" ex_class_with_extras) no_kwargs
  = translate 4 (ClassDef "A"
      ([Expr (Other "Str"); Assign [Name "z"] (Num 2)] ++
       [ClassDef "Inner" []; FunctionDef "b" [Name "self"] [Return (Name "self")]]))
      no_kwargs.
Proof.
  apply (X17_class_passes_over 4 "A" [Expr (Other "Str"); Assign [Name "z"] (Num 2)]
           (Other "Pass")).
  reflexivity.
Defined.

(** *** Assignments *)

(** X18: an assignment to several targets, none of them a tuple pattern,
    gives one statement [<target> = <value>] per target, in order, joined by
    [;\n], each with the same text for the value. *)
Theorem X18_chained_targets `{DictItems} fuel targets value value_def target_defs :
  forallb (λ t, negb (is_Tuple t)) targets = true →
  translate fuel value no_kwargs = Ok value_def →
  Forall2 (λ t s, translate fuel t no_kwargs = Ok s) targets target_defs →
  translate (S fuel) (Assign targets value) no_kwargs
  = Ok (join (";" +:+ nl) ((λ s, s +:+ " = " +:+ value_def) <$> target_defs)).
Proof.
  intros Hplain Hvalue Htargets. rewrite translate_S. simpl. unfold translate_assign.
  assert (for_each (assign_target (translate fuel) value) targets
          = Ok ((λ s, [s +:+ " = " +:+ value_def]) <$> target_defs)) as ->.
  { induction Htargets as [|t s targets target_defs Ht _ IH]; [done|].
    simpl in Hplain. apply andb_prop in Hplain as [Ht' Hplain].
    simpl. rewrite (IH Hplain).
    assert (assign_target (translate fuel) value t = Ok [s +:+ " = " +:+ value_def]) as ->.
    { unfold assign_target. rewrite Hvalue, Ht. by destruct t. }
    done. }
  simpl. do 2 f_equal. clear Htargets.
  induction target_defs as [|s target_defs IH]; [done|].
  rewrite !fmap_cons. cbn [concat app]. f_equal. exact IH.
Qed.

Lemma X18_chained_targets_witness :
  translate 3 ex_chained_assign no_kwargs = Ok ("a = 1;" +:+ nl +:+ "b.c = 1").
Proof.
  apply (X18_chained_targets 2 [Name "a"; Attribute (Name "b") "c"] (Num 1) "1" ["a"; "b.c"]).
  - reflexivity.
  - reflexivity.
  - constructor; [reflexivity|]. constructor; [reflexivity|]. constructor.
Defined.

(** X19: a tuple literal in value position is emitted as the placeholder
    [?tuple?] and its elements are never translated: assigned to a target
    that is not a tuple pattern, it gives [<target> = ?tuple?] whatever the
    elements are. *)
Theorem X19_tuple_value_placeholder `{DictItems} fuel target elts target_def :
  is_Tuple target = false →
  translate fuel target no_kwargs = Ok target_def →
  translate (S fuel) (Assign [target] (Tuple elts)) no_kwargs
  = Ok (target_def +:+ " = ?tuple?").
Proof.
  intros Hplain Htarget. rewrite translate_S. simpl. unfold translate_assign. simpl.
  assert (assign_target (translate fuel) (Tuple elts) target
          = Ok [target_def +:+ " = ?tuple?"]) as ->; [|done].
  unfold assign_target. rewrite Htarget.
  destruct fuel as [|fuel]; [done|]. by destruct target.
Qed.

Lemma X19_tuple_value_placeholder_witness :
  translate 2 (Assign [Name "x"] (Tuple [Num 1; Other "Str"])) no_kwargs
  = Ok "x = ?tuple?".
Proof.
  apply (X19_tuple_value_placeholder 1 (Name "x") [Num 1; Other "Str"] "x"); reflexivity.
Defined.

(** *** Anonymous functions *)

(** X20: an anonymous function is emitted as
    [function(<parameters>) {\nreturn <body>;\n}]: the body expression is
    returned and ends with a semicolon. *)
Theorem X20_lambda_text `{DictItems} fuel ids body body_def :
  is_If body = false →
  translate fuel body no_kwargs = Ok body_def →
  translate (S fuel) (Lambda (Name <$> ids) body) no_kwargs
  = Ok ("function(" +:+ join ", " ids +:+ ") {" +:+ nl +:+
        "return " +:+ (body_def +:+ ";") +:+ nl +:+ "}").
Proof.
  intros Hexpr Hbody. rewrite translate_S. simpl. unfold translate_lambda.
  rewrite for_each_arg_id_names. simpl. unfold translate_body. simpl.
  by rewrite Hexpr, Hbody.
Qed.

Lemma X20_lambda_text_witness :
  translate 3 (Lambda [Name "x"; Name "y"] (BinOp (Name "x") Mult (Name "y"))) no_kwargs
  = Ok ("function(x, y) {" +:+ nl +:+ "return (x * y);" +:+ nl +:+ "}").
Proof.
  apply (X20_lambda_text 2 ["x"; "y"] (BinOp (Name "x") Mult (Name "y")) "(x * y)");
    reflexivity.
Defined.

(** *** Expressions without parentheses *)

(** X21: a unary operation is the symbol of the operator followed at once
    by the operand: nothing is put between or around them. *)
Theorem X21_unary_op_text `{DictItems} fuel op operand O A :
  translate fuel op no_kwargs = Ok O →
  translate fuel operand no_kwargs = Ok A →
  translate (S fuel) (UnaryOp op operand) no_kwargs = Ok (O +:+ A).
Proof.
  intros Hop Hoperand. rewrite translate_S. simpl. unfold translate_unary_op. simpl.
  by rewrite Hop, Hoperand.
Qed.

Lemma X21_unary_op_text_witness :
  translate 3 (UnaryOp USub (UnaryOp USub (Name "x"))) no_kwargs = Ok "--x".
Proof.
  apply (X21_unary_op_text 2 USub (UnaryOp USub (Name "x")) "-" "-x"); reflexivity.
Defined.


